(** * Benchmark kernels of cpp-benches.cpp: a shallow embedding

    The kernels of [cpp-benches.cpp] are embedded as functions over [Z] with
    the wrap-around of the C++ fixed-width types written out.  Arrays are
    lists read through stdpp's lookup, the heap of list nodes is a list of
    node records addressed by index, and loops whose trip count depends on
    a run-time value take the number of loop passes to run as fuel.  The
    [void *arg] of the kernel signature is a parameter of the kernels that
    read it and of those a property quantifies it for; the others drop
    it. *)

From Stdlib Require Import ZArith Lia List.
From stdpp Require Import base option list.

Local Open Scope Z_scope.

(** ** Fixed-width integers *)

(** [uint64_t] and [size_t] arithmetic wraps modulo [2^64]. *)
Definition wrap64 (x : Z) : Z := x mod 2 ^ 64.

(** [uint32_t] arithmetic wraps modulo [2^32]. *)
Definition wrap32 (x : Z) : Z := x mod 2 ^ 32.

(** Conversion to [int64_t] / [long] (LP64): two's complement
    reinterpretation.  Decrementing [INT64_MIN] is undefined in ISO C++;
    the model gives it the wrap-around of the emitted [sub]/[dec]. *)
Definition to_int64 (x : Z) : Z := (x + 2 ^ 63) mod 2 ^ 64 - 2 ^ 63.

(** Conversion to [int]: two's complement reinterpretation on 32 bits. *)
Definition to_int32 (x : Z) : Z := (x + 2 ^ 31) mod 2 ^ 32 - 2 ^ 31.

Definition UINT64_MAX : Z := 2 ^ 64 - 1.

(** What a call does when run for a bounded number of loop passes. *)
Inductive outcome (A : Type) : Type :=
| Returned (r : A)  (* the call returned [r] *)
| Fault             (* undefined behaviour or a trap was reached *)
| Running.          (* the loop has not exited within the passes allowed *)

Arguments Returned {A} r.
Arguments Fault {A}.
Arguments Running {A}.

#[global] Instance outcome_ret : MRet outcome := fun A x => Returned x.

#[global] Instance outcome_bind : MBind outcome := fun A B f m =>
  match m with
  | Returned a => f a
  | Fault => Fault
  | Running => Running
  end.

(** Array read [a[i]] with an index held in an integer variable; reading
    outside the array is undefined behaviour. *)
Definition read (a : list Z) (i : Z) : outcome Z :=
  if i <? 0 then Fault
  else match a !! Z.to_nat i with
       | Some x => Returned x
       | None => Fault
       end.

(** ** opt-control.hpp *)

(** Modelled from the spec: [opt_control::modify] is declared in
    opt-control.hpp, which is not part of the sources.  The spec describes
    it as an opaque in-place mutation that forces the value to be
    materialised and has no run-time effect: the value is unchanged. *)
Definition modify (x : Z) : Z := x.

(** Modelled from the spec: [opt_control::sink] (opt-control.hpp, missing)
    marks a value as used; no return value and no run-time effect. *)
Definition sink (x : Z) : unit := tt.

(** Modelled from the spec: [always_zero] (util.hpp, missing) is the
    run-time computed value that is zero but not provably so for the
    compiler. *)
Definition always_zero : Z := 0.

(** ** portable_add_chain *)

(** [--iters] on an [int64_t]. *)
Definition dec64 (x : Z) : Z := to_int64 (x - 1).

(** One pass of the [do] body: four decrements, each preceded by a
    [modify] call; no [modify] follows the last one. *)
Definition add_chain_body (iters : Z) : Z :=
  let iters := modify iters in
  let iters := dec64 iters in
  let iters := modify iters in
  let iters := dec64 iters in
  let iters := modify iters in
  let iters := dec64 iters in
  let iters := modify iters in
  let iters := dec64 iters in
  iters.

(** [do { body } while (iters != 0); return iters;] *)
Fixpoint add_chain_loop (fuel : nat) (iters : Z) : outcome Z :=
  match fuel with
  | O => Running
  | S fuel' =>
      let iters := add_chain_body iters in
      if iters =? 0 then Returned iters else add_chain_loop fuel' iters
  end.

Definition portable_add_chain (fuel : nat) (itersu : Z) : outcome Z :=
  let iters := to_int64 itersu in
  add_chain_loop fuel iters.

(** The number of passes the loop makes for a count that is a multiple
    of four: a quarter of the count, and [2^62] for the count zero, whose
    first pass takes the counter below zero. *)
Definition add_chain_passes (itersu : Z) : nat :=
  Z.to_nat (if itersu =? 0 then 2 ^ 62 else itersu / 4).

(** A run, indexed by the passes allowed, returns [r]: from some number of
    passes on the outcome is [Returned r]. *)
Definition returns (run : nat -> outcome Z) (r : Z) : Prop :=
  exists passes : nat, forall fuel : nat,
      (passes <= fuel)%nat -> run fuel = Returned r.

(** Two runs return, and return the same value. *)
Definition return_same (run1 run2 : nat -> outcome Z) : Prop :=
  exists r : Z, returns run1 r /\ returns run2 r.

(** ** Division kernels *)

(** [typedef uint64_t (div_func)(uint64_t)]; [None] is the trap of an
    integer division by zero. *)
Definition div_func : Type := Z -> option Z.

(** [HEDLEY_NEVER_INLINE uint64_t no_inline(uint64_t a) { return F(a); }] *)
Definition no_inline (F : div_func) (a : Z) : option Z := F a.

Definition div32_64 (a : Z) : option Z :=
  if a =? 0 then None else Some (0x12345678 / a).

Definition div64_64 (a : Z) : option Z :=
  if a =? 0 then None else Some (0x1234567812345678 / a).

(** With [UARCH_BENCH_PORTABLE] unset the 128-bit dividend [high:low] is
    divided by [a] with the x86 [div] instruction, which leaves the
    quotient in [low] and traps on a zero divisor or a quotient that does
    not fit 64 bits. *)
Definition div128_64 (UARCH_BENCH_PORTABLE : bool) (a : Z) : option Z :=
  if UARCH_BENCH_PORTABLE then Some 1
  else
    let high := 123 in
    let low := 2 in
    let a := Z.lor a 0xF234567890123456 in
    let quotient := (high * 2 ^ 64 + low) / a in
    if (a =? 0) || (2 ^ 64 <=? quotient) then None else Some quotient.

(** The divisor of pass [k]: [d = k; if (forcedep) d += (sum & zero);] *)
Definition div64_divisor (forcedep : bool) (zero k sum : Z) : Z :=
  let d := k in
  if forcedep then wrap64 (d + Z.land sum zero) else d.

(** [for (uint64_t k = 1; k <= iters; k++) { ...; sum += F(d); }
     return (long)sum;] from the loop state [(k, sum)]. *)
Fixpoint div64_loop (F : div_func) (forcedep : bool) (zero : Z)
    (fuel : nat) (iters k sum : Z) : outcome Z :=
  match fuel with
  | O => Running
  | S fuel' =>
      if k <=? iters then
        let d := div64_divisor forcedep zero k sum in
        match F d with
        | None => Fault
        | Some q =>
            div64_loop F forcedep zero fuel' iters (wrap64 (k + 1)) (wrap64 (sum + q))
        end
      else Returned (to_int64 sum)
  end.

(** The pairs [(k, d)] of loop counter and divisor handed to [F], in
    order, over the passes allowed. *)
Fixpoint div64_divisors (F : div_func) (forcedep : bool) (zero : Z)
    (fuel : nat) (iters k sum : Z) : list (Z * Z) :=
  match fuel with
  | O => []
  | S fuel' =>
      if k <=? iters then
        let d := div64_divisor forcedep zero k sum in
        (k, d) ::
        match F d with
        | None => []
        | Some q =>
            div64_divisors F forcedep zero fuel' iters (wrap64 (k + 1)) (wrap64 (sum + q))
        end
      else []
  end.

(** [div64_templ<F, forcedep>(iters, arg)]; [zero] is what the call of
    [always_zero()] gave. *)
Definition div64_templ_from (zero : Z) (F : div_func) (forcedep : bool)
    (fuel : nat) (iters : Z) : outcome Z :=
  let sum := 0 in
  div64_loop F forcedep zero fuel iters 1 sum.

Definition div64_templ (F : div_func) (forcedep : bool)
    (fuel : nat) (iters : Z) : outcome Z :=
  div64_templ_from always_zero F forcedep fuel iters.

(** [F] divides by every non-zero 64-bit divisor without trapping. *)
Definition div_total (F : div_func) : Prop :=
  forall d : Z, 1 <= d < 2 ^ 64 -> exists q : Z, F d = Some q.

(** Modelled from the spec: [DIV_SPEC_X] (cpp-benches.hpp, missing) is the
    enumeration of divisor widths the kernels are generated from: 32-, 64-
    and 128-bit dividends, the three division functions of this file. *)
Inductive div_suffix : Type := s32_64 | s64_64 | s128_64.

Section DivBenches.

(** The build flag that replaces the inline assembly. *)
Variable UARCH_BENCH_PORTABLE : bool.

(** [div ## suffix] *)
Definition div_ (suffix : div_suffix) : div_func :=
  match suffix with
  | s32_64 => div32_64
  | s64_64 => div64_64
  | s128_64 => div128_64 UARCH_BENCH_PORTABLE
  end.

(** [MAKE_DIV_BENCHES(suffix)] *)
Definition div_lat_inline (suffix : div_suffix) (fuel : nat) (iters : Z) : outcome Z :=
  div64_templ (div_ suffix) true fuel iters.

Definition div_tput_inline (suffix : div_suffix) (fuel : nat) (iters : Z) : outcome Z :=
  div64_templ (div_ suffix) false fuel iters.

Definition div_lat_noinline (suffix : div_suffix) (fuel : nat) (iters : Z) : outcome Z :=
  div64_templ (no_inline (div_ suffix)) true fuel iters.

Definition div_tput_noinline (suffix : div_suffix) (fuel : nat) (iters : Z) : outcome Z :=
  div64_templ (no_inline (div_ suffix)) false fuel iters.

End DivBenches.

(** ** Strided stores *)

(** Modelled from the spec: [mem_args] (cpp-benches.hpp, missing) is the
    strided-store argument: start address, stride and wraparound
    bit-mask, the three fields the kernel reads. *)
Record mem_args : Type := { region : Z; stride : Z; mask : Z }.

(** The element types the kernel is instantiated at. *)
Inductive store_type : Type := uint8_t | uint32_t | uint64_t.

Definition sizeof (T : store_type) : Z :=
  match T with uint8_t => 1 | uint32_t => 4 | uint64_t => 8 end.

(** A store [*(T * )base = 0], recorded by the offset [base - region] of
    its target from the region base and by its width in bytes.  Pointer
    arithmetic does not wrap: offsets are plain integers. *)
Record store : Type := { target : Z; width : Z }.

(** The body of the loop at counter [i]: the masked offset and the four
    stores, each a stride after the one before. *)
Definition strided_stores_body (T : store_type) (args : mem_args) (i : Z) : list store :=
  let offset := Z.land (wrap64 (i * stride args)) (mask args) in
  let base := offset in
  let store1 := {| target := base; width := sizeof T |} in
  let base := base + stride args in
  let store2 := {| target := base; width := sizeof T |} in
  let base := base + stride args in
  let store3 := {| target := base; width := sizeof T |} in
  let base := base + stride args in
  let store4 := {| target := base; width := sizeof T |} in
  [store1; store2; store3; store4].

(** [for (uint64_t i = 0; i < iters; i += 4) { body }]: the stores of
    each pass, in order, over the passes allowed. *)
Fixpoint strided_stores_loop (T : store_type) (args : mem_args)
    (fuel : nat) (iters i : Z) : list (list store) :=
  match fuel with
  | O => []
  | S fuel' =>
      if i <? iters then
        strided_stores_body T args i ::
        strided_stores_loop T args fuel' iters (wrap64 (i + 4))
      else []
  end.

(** The stores [strided_stores<T>(iters, arg)] performs.  The value it
    returns, the byte at [region[0]], is not part of this trace. *)
Definition strided_stores (T : store_type) (fuel : nat) (iters : Z)
    (args : mem_args) : list (list store) :=
  strided_stores_loop T args fuel iters 0.

Definition strided_stores_1byte := strided_stores uint8_t.
Definition strided_stores_4byte := strided_stores uint32_t.
Definition strided_stores_8byte := strided_stores uint64_t.

(** The stores of one pass: the first inside a region of [size] bytes,
    the other three one, two and three strides after it. *)
Definition pass_shape (size : Z) (args : mem_args) (pass : list store) : Prop :=
  match pass with
  | [s1; s2; s3; s4] =>
      0 <= target s1 < size /\
      target s2 = target s1 + stride args /\
      target s3 = target s1 + 2 * stride args /\
      target s4 = target s1 + 3 * stride args
  | _ => False
  end.

(** The target of a store lies in a region of [size] bytes. *)
Definition target_inside (size : Z) (s : store) : Prop :=
  0 <= target s < size.

(** Every byte a store writes lies in a region of [size] bytes. *)
Definition bytes_inside (size : Z) (s : store) : Prop :=
  0 <= target s /\ target s + width s <= size.

(** ** Table lookup *)

(** [uint8_t crc8_table[256] = {};] *)
Definition crc8_table : list Z := replicate 256 0.

(** [while (data < end) crc = crc8_table[crc ^ *data++];] with [pos] the
    index [data] has advanced to and [n] the bytes left before [end]. *)
Fixpoint crc8_loop (n : nat) (data : list Z) (pos crc : Z) : outcome Z :=
  match n with
  | O => Returned crc
  | S n' =>
      byte ← read data pos;
      crc ← read crc8_table (Z.lxor crc byte);
      crc8_loop n' data (pos + 1) crc
  end.

Definition crc8 (crc : Z) (data : list Z) (len : Z) : outcome Z :=
  let crc := Z.land crc 0xff in
  crc8_loop (Z.to_nat len) data 0 crc.

(** [do { crc = crc8(crc, buf, sizeof(buf)); } while (--iters != 0);] *)
Fixpoint crc8_bench_loop (fuel : nat) (buf : list Z) (crc iters : Z) : outcome Z :=
  match fuel with
  | O => Running
  | S fuel' =>
      crc ← crc8 crc buf 4096;
      let iters := wrap64 (iters - 1) in
      if iters =? 0 then Returned crc
      else crc8_bench_loop fuel' buf crc iters
  end.

(** [buf] is what the uninitialised [uint8_t buf[4096]] holds. *)
Definition crc8_bench (buf : list Z) (fuel : nat) (iters : Z) : outcome Z :=
  let crc := 0 in
  crc8_bench_loop fuel buf crc iters.

(** An array of [n] elements of [bits] bits each. *)
Definition array_of (bits : Z) (n : nat) (a : list Z) : Prop :=
  length a = n /\ Forall (fun x => 0 <= x < 2 ^ bits) a.

(** Congruence modulo [2^32], the equality of [uint32_t] values. *)
Definition cong32 (a b : Z) : Prop := wrap32 a = wrap32 b.

(** ** Halves summation *)

Record top_bottom : Type := { top : Z; bottom : Z }.

(** [for (size_t i = 0; i < len; i += 2) { ... }] *)
Fixpoint sum_halves_loop (fuel : nat) (data : list Z) (len i top bottom : Z)
    : outcome top_bottom :=
  match fuel with
  | O => Running
  | S fuel' =>
      if i <? len then
        elem ← read data i;
        let top := wrap32 (top + Z.shiftr elem 16) in
        let bottom := wrap32 (bottom + Z.land elem 0xFFFF) in
        elem ← read data (wrap64 (i + 1));
        let top := wrap32 (top + Z.shiftr elem 16) in
        let bottom := wrap32 (bottom + Z.land elem 0xFFFF) in
        sum_halves_loop fuel' data len (wrap64 (i + 2)) top bottom
      else Returned {| top := top; bottom := bottom |}
  end.

(** The loop is left after at most [len] passes. *)
Definition sum_halves (data : list Z) (len : Z) : outcome top_bottom :=
  sum_halves_loop (S (Z.to_nat len)) data len 0 0 0.

(** The benchmark loop [do { sink(work); } while (--iters != 0);
    return 0;] shared by the kernels below; [work] reads buffers the loop
    does not change, so every pass does the same. *)
Fixpoint sink_loop {A : Type} (work : outcome A) (fuel : nat) (iters : Z) : outcome Z :=
  match fuel with
  | O => Running
  | S fuel' =>
      _ ← work;
      let iters := wrap64 (iters - 1) in
      if iters =? 0 then Returned 0
      else sink_loop work fuel' iters
  end.

(** [buf] is what the uninitialised [uint32_t buf[4096]] holds. *)
Definition sum_halves_bench (buf : list Z) (fuel : nat) (iters arg : Z) : outcome Z :=
  sink_loop (ret ← sum_halves buf 4096;
             mret (sink (wrap32 (top ret + bottom ret)))) fuel iters.

(** ** Multiply chains *)

(** [for (size_t i = 0; i < len; i++) { x = data[i]; product *= x; }] *)
Fixpoint mul_chain_loop (fuel : nat) (data : list Z) (len i product : Z) : outcome Z :=
  match fuel with
  | O => Running
  | S fuel' =>
      if i <? len then
        x ← read data i;
        let product := wrap32 (product * x) in
        mul_chain_loop fuel' data len (wrap64 (i + 1)) product
      else Returned product
  end.

Definition mul_chain (data : list Z) (len m : Z) : outcome Z :=
  let product := 1 in
  product ← mul_chain_loop (S (Z.to_nat len)) data len 0 product;
  let _ := sink product in
  mret product.

(** [for (size_t i = 0; i < len; i += 4) { p1 *= data[i + 0]; ... }] *)
Fixpoint mul_chain4_loop (fuel : nat) (data : list Z) (len i p1 p2 p3 p4 : Z)
    : outcome (Z * Z * Z * Z) :=
  match fuel with
  | O => Running
  | S fuel' =>
      if i <? len then
        x ← read data (wrap64 (i + 0));
        let p1 := wrap32 (p1 * x) in
        x ← read data (wrap64 (i + 1));
        let p2 := wrap32 (p2 * x) in
        x ← read data (wrap64 (i + 2));
        let p3 := wrap32 (p3 * x) in
        x ← read data (wrap64 (i + 3));
        let p4 := wrap32 (p4 * x) in
        mul_chain4_loop fuel' data len (wrap64 (i + 4)) p1 p2 p3 p4
      else Returned (p1, p2, p3, p4)
  end.

Definition mul_chain4 (data : list Z) (len m : Z) : outcome Z :=
  '(p1, p2, p3, p4) ← mul_chain4_loop (S (Z.to_nat len)) data len 0 1 1 1 1;
  let product := wrap32 (wrap32 (wrap32 (p1 * p2) * p3) * p4) in
  let _ := sink product in
  mret product.

(** [mul_by_bench_f(iters, arg, f)] *)
Definition mul_by_bench_f (f : list Z -> Z -> Z -> outcome Z)
    (buf : list Z) (fuel : nat) (iters arg : Z) : outcome Z :=
  let x := 123 in
  let x := modify x in
  sink_loop (r ← f buf 4096 x; mret (sink r)) fuel iters.

Definition mul_chain_bench : list Z -> nat -> Z -> Z -> outcome Z :=
  mul_by_bench_f mul_chain.

Definition mul_chain4_bench : list Z -> nat -> Z -> Z -> outcome Z :=
  mul_by_bench_f mul_chain4.

(** ** Indirect summation *)

(** [do { sum1 += data[offsets[i - 1]]; sum2 += data[offsets[i - 2]];
          i -= 2; } while (i);] *)
Fixpoint add_indirect_loop (fuel : nat) (data offsets : list Z) (i sum1 sum2 : Z)
    : outcome (Z * Z) :=
  match fuel with
  | O => Running
  | S fuel' =>
      o ← read offsets (wrap64 (i - 1));
      x ← read data o;
      let sum1 := wrap32 (sum1 + x) in
      o ← read offsets (wrap64 (i - 2));
      x ← read data o;
      let sum2 := wrap32 (sum2 + x) in
      let i := wrap64 (i - 2) in
      if i =? 0 then Returned (sum1, sum2)
      else add_indirect_loop fuel' data offsets i sum1 sum2
  end.

(** The same loop with both offsets fetched by one 8-byte [memcpy] from
    [offsets + i - 2] (little-endian: the element at the lower index is
    the low half). *)
Fixpoint add_indirect_shift_loop (fuel : nat) (data offsets : list Z) (i sum1 sum2 : Z)
    : outcome (Z * Z) :=
  match fuel with
  | O => Running
  | S fuel' =>
      low ← read offsets (i - 2);
      high ← read offsets (i - 2 + 1);
      let twooffsets := Z.lor low (Z.shiftl high 32) in
      x ← read data (Z.shiftr twooffsets 32);
      let sum1 := wrap32 (sum1 + x) in
      x ← read data (Z.land twooffsets 0xFFFFFFFF);
      let sum2 := wrap32 (sum2 + x) in
      let i := wrap64 (i - 2) in
      if i =? 0 then Returned (sum1, sum2)
      else add_indirect_shift_loop fuel' data offsets i sum1 sum2
  end.

Section Assert.

(** Whether [assert] is compiled out. *)
Variable NDEBUG : bool.

(** A failed [assert] aborts the call. *)
Definition assert (cond : bool) : outcome unit :=
  if NDEBUG || cond then Returned tt else Fault.

(** The loop is left after at most [len] passes. *)
Definition add_indirect_inner (data offsets : list Z) (len : Z) : outcome Z :=
  _ ← assert ((2 <=? len) && (len mod 2 =? 0));
  let i := len in
  '(sum1, sum2) ← add_indirect_loop (Z.to_nat len) data offsets i 0 0;
  let _ := sink (wrap32 (sum1 + sum2)) in
  mret (wrap32 (sum1 + sum2)).

Definition add_indirect_shift_inner (data offsets : list Z) (len : Z) : outcome Z :=
  let i := len in
  '(sum1, sum2) ← add_indirect_shift_loop (Z.to_nat len) data offsets i 0 0;
  let _ := sink (wrap32 (sum1 + sum2)) in
  mret (wrap32 (sum1 + sum2)).

(** [add_indirect_f(iters, arg, f)]: [buf] is what the uninitialised
    [uint32_t buf[4096]] holds, [offsets] is zero-initialised. *)
Definition add_indirect_f (f : list Z -> list Z -> Z -> outcome Z)
    (buf : list Z) (fuel : nat) (iters arg : Z) : outcome Z :=
  let offsets := replicate 4096 0 in
  let x := 123 in
  let x := modify x in
  sink_loop (r ← f buf offsets 4096; mret (sink r)) fuel iters.

Definition add_indirect : list Z -> nat -> Z -> Z -> outcome Z :=
  add_indirect_f add_indirect_inner.

Definition add_indirect_shift : list Z -> nat -> Z -> Z -> outcome Z :=
  add_indirect_f add_indirect_shift_inner.

End Assert.

(** ** Linked lists *)

(** A pointer to a list node: [None] is [nullptr], [Some a] the node at
    index [a] of the heap. *)
Abbreviation node_ptr := (option nat) (only parsing).

Record list_node : Type := { value : Z; next : node_ptr }.

Record list_head : Type := { size : Z; first : node_ptr }.

(** The nodes allocated so far, in allocation order. *)
Abbreviation heap := (list list_node) (only parsing).

(** [*p]; dereferencing [nullptr] or an address outside the heap is
    undefined behaviour. *)
Definition deref (h : heap) (p : node_ptr) : outcome list_node :=
  match p with
  | None => Fault
  | Some a => match h !! a with
              | Some nd => Returned nd
              | None => Fault
              end
  end.

(** [cur->next = p] *)
Definition set_next (p : node_ptr) (nd : list_node) : list_node :=
  {| value := value nd; next := p |}.

(** [while (--size > 0) { next = all_nodes++; cur->next = next;
                          cur = next; }] *)
Fixpoint makeList_loop (fuel : nat) (h : heap) (size : Z) (all_nodes cur : nat) : heap :=
  match fuel with
  | O => h
  | S fuel' =>
      let size := size - 1 in
      if 0 <? size then
        let next := all_nodes in
        let all_nodes := S all_nodes in
        let h := alter (set_next (Some next)) cur h in
        let cur := next in
        makeList_loop fuel' h size all_nodes cur
      else h
  end.

(** [makeList(size)] on the heap [h]: the value-initialised array
    [all_nodes], then the first node [{1, nullptr}], then the links.  A
    negative array size makes [new] throw; the loop makes [size] tests. *)
Definition makeList (size : Z) (h : heap) : outcome (heap * list_head) :=
  let head := {| size := size; first := None |} in
  if size =? 0 then Returned (h, head)
  else if size <? 0 then Fault
  else
    let all_nodes := length h in
    let h := h ++ replicate (Z.to_nat size) {| value := 0; next := None |} in
    let first_node := length h in
    let h := h ++ [{| value := 1; next := None |}] in
    let head := {| size := size; first := Some first_node |} in
    let cur := first_node in
    let h := makeList_loop (Z.to_nat size) h size all_nodes cur in
    Returned (h, head).

Definition NODE_COUNT : Z := 5.

(** [typedef long (list_sum)(list_head head)], reading the heap, with the
    passes allowed to its loop. *)
Definition list_sum : Type := nat -> heap -> list_head -> outcome Z.

(** [for (int i = 0; i < list.size; cur = cur->next, i++)
       sum += cur->value;] *)
Fixpoint sum_counter_loop (fuel : nat) (h : heap) (size : Z) (cur : node_ptr)
    (i sum : Z) : outcome Z :=
  match fuel with
  | O => Running
  | S fuel' =>
      if i <? size then
        nd ← deref h cur;
        let sum := to_int32 (sum + value nd) in
        let cur := next nd in
        sum_counter_loop fuel' h size cur (i + 1) sum
      else Returned sum
  end.

Definition sum_counter : list_sum := fun fuel h list =>
  let sum := 0 in
  let cur := first list in
  sum_counter_loop fuel h (size list) cur 0 sum.

(** [for (list_node* cur = list.first; cur; cur = cur->next)
       sum += cur->value;] *)
Fixpoint sum_sentinel_loop (fuel : nat) (h : heap) (cur : node_ptr) (sum : Z)
    : outcome Z :=
  match fuel with
  | O => Running
  | S fuel' =>
      match cur with
      | Some _ =>
          nd ← deref h cur;
          let sum := to_int32 (sum + value nd) in
          let cur := next nd in
          sum_sentinel_loop fuel' h cur sum
      | None => Returned sum
      end
  end.

Definition sum_sentinel : list_sum := fun fuel h list =>
  let sum := 0 in
  sum_sentinel_loop fuel h (first list) sum.

Section LinkedLists.

(** Modelled from the spec: [LIST_COUNT] (cpp-benches.hpp, missing) is
    the fixed number of lists built at start-up. *)
Variable LIST_COUNT : Z.

(** [for (int i = 0; i < LIST_COUNT; i++)
       lists.push_back(makeList(NODE_COUNT));] *)
Fixpoint makeLists_loop (fuel : nat) (h : heap) (lists : list list_head) (i : Z)
    : outcome (heap * list list_head) :=
  match fuel with
  | O => Running
  | S fuel' =>
      if i <? LIST_COUNT then
        '(h, head) ← makeList NODE_COUNT h;
        let lists := lists ++ [head] in
        makeLists_loop fuel' h lists (i + 1)
      else Returned (h, lists)
  end.

(** The loop is left after [LIST_COUNT] passes. *)
Definition makeLists : outcome (heap * list list_head) :=
  makeLists_loop (S (Z.to_nat LIST_COUNT)) [] [] 0.

(** The global [listOfLists] with the heap its nodes live in. *)
Definition listOfLists : outcome (heap * list list_head) := makeLists.

(** [listOfLists[list_index]] *)
Definition at_index (lists : list list_head) (list_index : Z) : outcome list_head :=
  if list_index <? 0 then Fault
  else match lists !! Z.to_nat list_index with
       | Some head => Returned head
       | None => Fault
       end.

(** [for (size_t list_index = 0; list_index < LIST_COUNT; list_index++)
       sum += SUM_IMPL(listOfLists[list_index]);] *)
Fixpoint linkedlist_sum_lists (SUM_IMPL : list_sum) (passes fuel : nat)
    (h : heap) (lists : list list_head) (list_index sum : Z) : outcome Z :=
  match fuel with
  | O => Running
  | S fuel' =>
      if list_index <? LIST_COUNT then
        head ← at_index lists list_index;
        r ← SUM_IMPL passes h head;
        let sum := to_int32 (sum + r) in
        linkedlist_sum_lists SUM_IMPL passes fuel' h lists (wrap64 (list_index + 1)) sum
      else Returned sum
  end.

(** [while (iters-- > 0) { ... }] *)
Fixpoint linkedlist_sum_loop (SUM_IMPL : list_sum) (passes fuel : nat)
    (h : heap) (lists : list list_head) (iters sum : Z) : outcome Z :=
  match fuel with
  | O => Running
  | S fuel' =>
      if 0 <? iters then
        let iters := wrap64 (iters - 1) in
        sum ← linkedlist_sum_lists SUM_IMPL passes passes h lists 0 sum;
        linkedlist_sum_loop SUM_IMPL passes fuel' h lists iters sum
      else Returned sum
  end.

(** [linkedlist_sum<SUM_IMPL>(iters)]; every loop of the call may make
    [fuel] passes. *)
Definition linkedlist_sum (SUM_IMPL : list_sum) (fuel : nat) (iters : Z) : outcome Z :=
  '(h, lists) ← listOfLists;
  let sum := 0 in
  linkedlist_sum_loop SUM_IMPL fuel fuel h lists iters sum.

Definition linkedlist_counter (fuel : nat) (iters : Z) : outcome Z :=
  linkedlist_sum sum_counter fuel iters.

Definition linkedlist_sentinel (fuel : nat) (iters : Z) : outcome Z :=
  linkedlist_sum sum_sentinel fuel iters.

End LinkedLists.

(** The nodes a call [makeList(NODE_COUNT)] leaves on a heap that held
    [b] nodes: four linked zero nodes, the unused fifth, and the first
    node, whose value is 1. *)
Definition node_block (b : nat) : heap :=
  [ {| value := 0; next := Some (S b) |};
    {| value := 0; next := Some (S (S b)) |};
    {| value := 0; next := Some (S (S (S b))) |};
    {| value := 0; next := None |};
    {| value := 0; next := None |};
    {| value := 1; next := Some b |} ].

(** Both traversals of [list] return [r] on the heap [h], whatever the
    passes allowed beyond [NODE_COUNT]. *)
Definition sums_to (h : heap) (list : list_head) (r : Z) : Prop :=
  forall fuel : nat,
    (Z.to_nat NODE_COUNT < fuel)%nat ->
    sum_counter fuel h list = Returned r /\ sum_sentinel fuel h list = Returned r.

(** ** Circular list traversal *)

(** [do { sum += p->value; p = p->next; } while (p != first);] with a
    [long] accumulator. *)
Fixpoint sumlist_loop (fuel : nat) (h : heap) (first p : node_ptr) (sum : Z)
    : outcome Z :=
  match fuel with
  | O => Running
  | S fuel' =>
      nd ← deref h p;
      let sum := to_int64 (sum + value nd) in
      let p := next nd in
      if decide (p = first) then Returned sum
      else sumlist_loop fuel' h first p sum
  end.

Definition sumlist (fuel : nat) (h : heap) (first : node_ptr) : outcome Z :=
  let sum := 0 in
  let p := first in
  sumlist_loop fuel h first p sum.

(** Modelled from the spec: [region] (the memory-region argument of the
    missing header) holds a start address and a byte length; the kernel
    reads [start] as the first node of the list laid out in the region. *)
Record region_arg : Type := { start : node_ptr; length_bytes : Z }.

(** [while (iters-- > 0) { sum += sumlist((list_node* )r->start); }] *)
Fixpoint shuffled_list_sum_loop (passes fuel : nat) (h : heap) (r : region_arg)
    (iters sum : Z) : outcome Z :=
  match fuel with
  | O => Running
  | S fuel' =>
      if 0 <? iters then
        let iters := wrap64 (iters - 1) in
        s ← sumlist passes h (start r);
        let sum := to_int32 (sum + s) in
        shuffled_list_sum_loop passes fuel' h r iters sum
      else Returned sum
  end.

(** [shuffled_list_sum(iters, arg)] with [arg] pointing to [r]; every
    loop of the call may make [fuel] passes. *)
Definition shuffled_list_sum (h : heap) (fuel : nat) (iters : Z) (r : region_arg)
    : outcome Z :=
  let sum := 0 in
  shuffled_list_sum_loop fuel fuel h r iters sum.

(** ** mul_by *)

(** [for (size_t i = 0; i < len - 1; i++) {
       x = data[i], y = data[i + 1]; sum += x * y * m * i * i; }]:
    [x * y * m] is a [uint32_t] product, the two factors [i] make it a
    [size_t] product, and the sum is cut back to [uint32_t]. *)
Fixpoint mul_by_loop (fuel : nat) (data : list Z) (len m i sum : Z) : outcome Z :=
  match fuel with
  | O => Running
  | S fuel' =>
      if i <? wrap64 (len - 1) then
        x ← read data i;
        y ← read data (wrap64 (i + 1));
        let sum := wrap32 (wrap64 (sum + wrap64 (wrap64 (wrap32 (wrap32 (x * y) * m) * i) * i))) in
        mul_by_loop fuel' data len m (wrap64 (i + 1)) sum
      else Returned sum
  end.

Definition mul_by (fuel : nat) (data : list Z) (len m : Z) : outcome Z :=
  let sum := 0 in
  sum ← mul_by_loop fuel data len m 0 sum;
  let _ := sink sum in
  mret sum.

Definition mul_by_bench (buf : list Z) (fuel : nat) (iters arg : Z) : outcome Z :=
  mul_by_bench_f (mul_by fuel) buf fuel iters arg.

(** ** Sums, products and list shapes the properties are stated with *)

Definition Zsum (l : list Z) : Z := foldr Z.add 0 l.

Definition Zprod (l : list Z) : Z := foldr Z.mul 1 l.

(** The element [data[o]], 0 outside the array. *)
Definition elem (data : list Z) (o : Z) : Z :=
  default 0 (data !! Z.to_nat o).

(** From [p], following [next], the nodes hold the values [vals] and the
    last of them points to [nullptr]. *)
Fixpoint chain (h : heap) (p : node_ptr) (vals : list Z) : Prop :=
  match vals with
  | [] => p = None
  | v :: vals' =>
      exists (a : nat) (q : node_ptr),
        p = Some a /\ h !! a = Some {| value := v; next := q |} /\ chain h q vals'
  end.

(** From [p], following [next], the nodes hold the values [vals], the
    last of them points to [first] and none before it does. *)
Fixpoint cycle (h : heap) (first p : node_ptr) (vals : list Z) : Prop :=
  match vals with
  | [] => False
  | v :: vals' =>
      exists (a : nat) (q : node_ptr),
        p = Some a /\ h !! a = Some {| value := v; next := q |} /\
        match vals' with
        | [] => q = first
        | _ :: _ => q <> first /\ cycle h first q vals'
        end
  end.

(** The quotient the division of width [suffix] gives for the divisor
    [k], 0 where it traps. *)
Definition div_quotient (UARCH_BENCH_PORTABLE : bool) (suffix : div_suffix) (k : Z) : Z :=
  default 0 (div_ UARCH_BENCH_PORTABLE suffix k).

(** [f k + f (k + 1) + ... ] over [m] consecutive arguments. *)
Fixpoint Zsum_from (f : Z -> Z) (k : Z) (m : nat) : Z :=
  match m with
  | O => 0
  | S m' => f k + Zsum_from f (k + 1) m'
  end.

(* ================================================================== *)
(** * Properties *)

Section FixedWidth.

Lemma wrap64_range x : 0 <= wrap64 x < 2 ^ 64.
Proof. unfold wrap64. apply Z.mod_pos_bound. lia. Qed.

Lemma wrap32_range x : 0 <= wrap32 x < 2 ^ 32.
Proof. unfold wrap32. apply Z.mod_pos_bound. lia. Qed.

Lemma wrap64_small x : 0 <= x < 2 ^ 64 -> wrap64 x = x.
Proof. intros H. unfold wrap64. apply Z.mod_small. lia. Qed.

Lemma wrap32_small x : 0 <= x < 2 ^ 32 -> wrap32 x = x.
Proof. intros H. unfold wrap32. apply Z.mod_small. lia. Qed.

Lemma to_int64_range x : - 2 ^ 63 <= to_int64 x < 2 ^ 63.
Proof.
  unfold to_int64.
  pose proof (Z.mod_pos_bound (x + 2 ^ 63) (2 ^ 64)). lia.
Qed.

Lemma to_int64_small x : - 2 ^ 63 <= x < 2 ^ 63 -> to_int64 x = x.
Proof.
  intros H. unfold to_int64. rewrite Z.mod_small; lia.
Qed.

(** The signed reinterpretation keeps the residue modulo [2^64]. *)
Lemma to_int64_mod x : to_int64 x mod 2 ^ 64 = x mod 2 ^ 64.
Proof.
  unfold to_int64.
  rewrite Zminus_mod, Zmod_mod, <- Zminus_mod.
  f_equal. lia.
Qed.

End FixedWidth.

(** ** The portable add chain *)

Section AddChain.

Lemma dec64_mod x : dec64 x mod 2 ^ 64 = (x - 1) mod 2 ^ 64.
Proof. unfold dec64. apply to_int64_mod. Qed.

(** A pass lowers the counter by four, modulo [2^64]. *)
Lemma add_chain_body_mod x :
  add_chain_body x mod 2 ^ 64 = (x - 4) mod 2 ^ 64.
Proof.
  unfold add_chain_body, modify.
  rewrite dec64_mod.
  rewrite Zminus_mod, dec64_mod, <- Zminus_mod.
  replace (dec64 (dec64 x) - 1 - 1) with (dec64 (dec64 x) - 2) by lia.
  rewrite Zminus_mod, dec64_mod, <- Zminus_mod.
  replace (dec64 x - 1 - 2) with (dec64 x - 3) by lia.
  rewrite Zminus_mod, dec64_mod, <- Zminus_mod.
  f_equal. lia.
Qed.

Lemma add_chain_body_range x : - 2 ^ 63 <= add_chain_body x < 2 ^ 63.
Proof. unfold add_chain_body, modify, dec64. apply to_int64_range. Qed.

(** The residue modulo four is unchanged by a pass. *)
Lemma add_chain_body_mod4 x : add_chain_body x mod 4 = x mod 4.
Proof.
  assert (D : (4 | 2 ^ 64)) by (exists (2 ^ 62); reflexivity).
  rewrite <- (Z.mod_mod_divide (add_chain_body x) (2 ^ 64) 4 D).
  rewrite add_chain_body_mod.
  rewrite (Z.mod_mod_divide _ _ _ D).
  replace (x - 4) with (x + (-1) * 4) by lia.
  apply Z_mod_plus_full.
Qed.

(** A counter whose unsigned value is [4 * (k + 1)] reaches zero after
    exactly [k + 1] passes. *)
Lemma add_chain_loop_descend (k : nat) :
  forall (fuel : nat) (x : Z),
    (k < fuel)%nat ->
    x mod 2 ^ 64 = 4 * (Z.of_nat k + 1) ->
    4 * (Z.of_nat k + 1) < 2 ^ 64 ->
    add_chain_loop fuel x = Returned 0.
Proof.
  induction k as [|k IH]; intros fuel x Hf Hx Hb;
    (destruct fuel as [|fuel]; [lia|]); cbn [add_chain_loop];
    pose proof (add_chain_body_mod x) as Hm;
    pose proof (add_chain_body_range x) as Hr;
    rewrite Zminus_mod, Hx in Hm.
  - replace (4 * (Z.of_nat 0 + 1)) with 4 in Hm by lia.
    change ((4 - 4 mod 2 ^ 64) mod 2 ^ 64) with 0 in Hm.
    assert (E : add_chain_body x = 0).
    { apply Z.mod_divide in Hm; [|lia]. destruct Hm as [q Hq]. lia. }
    rewrite E. reflexivity.
  - rewrite (Z.mod_small 4) in Hm by lia.
    replace (4 * (Z.of_nat (S k) + 1) - 4) with (4 * (Z.of_nat k + 1)) in Hm by lia.
    rewrite (Z.mod_small (4 * (Z.of_nat k + 1))) in Hm by lia.
    destruct (Z.eqb_spec (add_chain_body x) 0) as [E|E].
    + rewrite E in Hm. change (0 mod 2 ^ 64) with 0 in Hm. lia.
    + apply IH; [lia | exact Hm | lia].
Qed.

(** With fewer passes than a quarter of the count the loop is still
    running: the count given is the exact trip count. *)
Lemma add_chain_loop_not_before (k : nat) :
  forall (fuel : nat) (x : Z),
    (fuel <= k)%nat ->
    x mod 2 ^ 64 = 4 * (Z.of_nat k + 1) ->
    4 * (Z.of_nat k + 1) < 2 ^ 64 ->
    add_chain_loop fuel x = Running.
Proof.
  induction k as [|k IH]; intros fuel x Hf Hx Hb;
    (destruct fuel as [|fuel]; [reflexivity|]); [lia|].
  cbn [add_chain_loop].
  pose proof (add_chain_body_mod x) as Hm.
  rewrite Zminus_mod, Hx in Hm.
  rewrite (Z.mod_small 4) in Hm by lia.
  replace (4 * (Z.of_nat (S k) + 1) - 4) with (4 * (Z.of_nat k + 1)) in Hm by lia.
  rewrite (Z.mod_small (4 * (Z.of_nat k + 1))) in Hm by lia.
  destruct (Z.eqb_spec (add_chain_body x) 0) as [E|E].
  - rewrite E in Hm. change (0 mod 2 ^ 64) with 0 in Hm. lia.
  - apply IH; [lia | exact Hm | lia].
Qed.

(** A counter that is not a multiple of four never becomes zero. *)
Lemma add_chain_loop_forever (fuel : nat) :
  forall x : Z, x mod 4 <> 0 -> add_chain_loop fuel x = Running.
Proof.
  induction fuel as [|fuel IH]; intros x Hx; [reflexivity|].
  cbn [add_chain_loop].
  pose proof (add_chain_body_mod4 x) as Hm.
  destruct (Z.eqb_spec (add_chain_body x) 0) as [E|E].
  - rewrite E in Hm. change (0 mod 4) with 0 in Hm. congruence.
  - apply IH. congruence.
Qed.

Lemma to_int64_mod4 x : to_int64 x mod 4 = x mod 4.
Proof.
  assert (D : (4 | 2 ^ 64)) by (exists (2 ^ 62); reflexivity).
  rewrite <- (Z.mod_mod_divide (to_int64 x) (2 ^ 64) 4 D).
  rewrite to_int64_mod.
  apply (Z.mod_mod_divide _ _ _ D).
Qed.

Lemma portable_add_chain_returns (itersu : Z) (fuel : nat) :
  0 <= itersu < 2 ^ 64 ->
  itersu mod 4 = 0 ->
  (add_chain_passes itersu <= fuel)%nat ->
  portable_add_chain fuel itersu = Returned 0.
Proof.
  intros Hr H4 Hf. unfold portable_add_chain, add_chain_passes in *.
  destruct (Z.eqb_spec itersu 0) as [E|E].
  - subst itersu.
    destruct fuel as [|fuel]; [lia|]. cbn [add_chain_loop].
    change (to_int64 0) with 0.
    change (add_chain_body 0) with (-4).
    cbn [Z.eqb].
    apply (add_chain_loop_descend (Z.to_nat (2 ^ 62 - 2))); [lia | | lia].
    rewrite Z2Nat.id by lia. reflexivity.
  - apply Z.mod_divide in H4; [|lia]. destruct H4 as [q Hq].
    replace (itersu / 4) with q in Hf by (subst itersu; symmetry; apply Z.div_mul; lia).
    apply (add_chain_loop_descend (Z.to_nat (q - 1))); [lia | | lia].
    rewrite to_int64_mod, Z.mod_small by lia. lia.
Qed.

(** [add_chain_passes] is the exact trip count: with fewer passes the
    loop is still running.  For the count 0 this is [2^62] passes, through
    the wrap-around of the counter. *)
Lemma portable_add_chain_running (itersu : Z) (fuel : nat) :
  0 <= itersu < 2 ^ 64 ->
  itersu mod 4 = 0 ->
  (fuel < add_chain_passes itersu)%nat ->
  portable_add_chain fuel itersu = Running.
Proof.
  intros Hr H4 Hf. unfold portable_add_chain, add_chain_passes in *.
  destruct (Z.eqb_spec itersu 0) as [E|E].
  - subst itersu.
    destruct fuel as [|fuel]; [reflexivity|]. cbn [add_chain_loop].
    change (to_int64 0) with 0.
    change (add_chain_body 0) with (-4).
    cbn [Z.eqb].
    apply (add_chain_loop_not_before (Z.to_nat (2 ^ 62 - 2))); [lia | | lia].
    rewrite Z2Nat.id by lia. reflexivity.
  - apply Z.mod_divide in H4; [|lia]. destruct H4 as [q Hq].
    replace (itersu / 4) with q in Hf by (subst itersu; symmetry; apply Z.div_mul; lia).
    apply (add_chain_loop_not_before (Z.to_nat (q - 1))); [lia | | lia].
    rewrite to_int64_mod, Z.mod_small by lia. lia.
Qed.

(** For a count in [0 < itersu < 2^63] the counter stays between 0 and
    the count: no decrement of the run wraps. *)
Lemma add_chain_body_exact (x : Z) :
  4 <= x < 2 ^ 63 -> add_chain_body x = x - 4.
Proof.
  intros Hx. unfold add_chain_body, modify, dec64.
  rewrite (to_int64_small (x - 1)) by lia.
  rewrite (to_int64_small (x - 1 - 1)) by lia.
  rewrite (to_int64_small (x - 1 - 1 - 1)) by lia.
  rewrite (to_int64_small (x - 1 - 1 - 1 - 1)) by lia.
  lia.
Qed.

End AddChain.

Example portable_add_chain_4 : portable_add_chain 1 4 = Returned 0.
Proof. reflexivity. Qed.

Example portable_add_chain_40 : portable_add_chain 10 40 = Returned 0.
Proof. reflexivity. Qed.

Example portable_add_chain_40_early : portable_add_chain 9 40 = Running.
Proof. reflexivity. Qed.

Example portable_add_chain_4000 : portable_add_chain 1000 4000 = Returned 0.
Proof. vm_compute. reflexivity. Qed.

(** C2: for an iteration count that is a multiple of four the portable
    add-chain kernel leaves its loop after finitely many passes and
    returns 0; for a count that is not a multiple of four the loop has not
    been left after any number of passes. *)
Theorem portable_add_chain_multiple_of_four (itersu : Z) :
  0 <= itersu < 2 ^ 64 ->
  (itersu mod 4 = 0 ->
   returns (fun fuel => portable_add_chain fuel itersu) 0) /\
  (itersu mod 4 <> 0 ->
   forall fuel : nat, portable_add_chain fuel itersu = Running).
Proof.
  intros Hr. split.
  - intros H4. exists (add_chain_passes itersu). intros fuel Hf.
    now apply portable_add_chain_returns.
  - intros H4 fuel. unfold portable_add_chain.
    apply add_chain_loop_forever. now rewrite to_int64_mod4.
Qed.

Lemma portable_add_chain_multiple_of_four_witness :
  returns (fun fuel => portable_add_chain fuel 4000) 0 /\
  (forall fuel : nat, portable_add_chain fuel 4001 = Running).
Proof.
  split.
  - apply (portable_add_chain_multiple_of_four 4000); [lia | reflexivity].
  - apply (portable_add_chain_multiple_of_four 4001); [lia | discriminate].
Defined.

(** ** The division kernels *)

Section DivProps.

Lemma div64_divisor_zero (forcedep : bool) (k sum : Z) :
  0 <= k < 2 ^ 64 -> div64_divisor forcedep 0 k sum = k.
Proof.
  intros Hk. unfold div64_divisor. destruct forcedep; [|reflexivity].
  rewrite Z.land_0_r, Z.add_0_r. now apply wrap64_small.
Qed.

(** With a zero mask the two dependency variants run in lockstep. *)
Lemma div64_loop_forcedep (F : div_func) (fuel : nat) :
  forall iters k sum : Z,
    0 <= k < 2 ^ 64 ->
    div64_loop F true 0 fuel iters k sum = div64_loop F false 0 fuel iters k sum.
Proof.
  induction fuel as [|fuel IH]; intros iters k sum Hk; [reflexivity|].
  cbn [div64_loop]. rewrite !div64_divisor_zero by assumption.
  destruct (k <=? iters); [|reflexivity].
  destruct (F k) as [q|]; [|reflexivity].
  apply IH, wrap64_range.
Qed.

Lemma no_inline_eq (F : div_func) : no_inline F = F.
Proof. reflexivity. Qed.

Lemma div32_64_total : div_total div32_64.
Proof.
  intros d Hd. unfold div32_64.
  destruct (Z.eqb_spec d 0); [lia|]. eauto.
Qed.

Lemma div64_64_total : div_total div64_64.
Proof.
  intros d Hd. unfold div64_64.
  destruct (Z.eqb_spec d 0); [lia|]. eauto.
Qed.

(** The [or] with a constant whose top bit is set keeps the divisor
    above the high half of the dividend: [div] cannot trap. *)
Lemma lor_top_bit (a : Z) :
  0 <= a -> 2 ^ 63 <= Z.lor a 0xF234567890123456.
Proof.
  intros Ha.
  pose proof (Z.log2_lor a 0xF234567890123456 Ha ltac:(lia)) as Hl.
  change (Z.log2 0xF234567890123456) with 63 in Hl.
  assert (Hn : 0 <= Z.lor a 0xF234567890123456) by (apply Z.lor_nonneg; lia).
  destruct (Z.eq_dec (Z.lor a 0xF234567890123456) 0) as [E|E].
  - rewrite E in Hl. change (Z.log2 0) with 0 in Hl. lia.
  - pose proof (Z.log2_spec (Z.lor a 0xF234567890123456) ltac:(lia)) as [Hs _].
    assert (63 <= Z.log2 (Z.lor a 0xF234567890123456)) by lia.
    pose proof (Z.pow_le_mono_r 2 63 (Z.log2 (Z.lor a 0xF234567890123456))
                  ltac:(lia) ltac:(assumption)).
    lia.
Qed.

Lemma div128_64_defined (portable : bool) (a : Z) :
  0 <= a -> exists q : Z, div128_64 portable a = Some q.
Proof.
  intros Ha. unfold div128_64. destruct portable; [eauto|].
  pose proof (lor_top_bit a Ha) as Hb.
  cbv zeta.
  destruct (Z.eqb_spec (Z.lor a 0xF234567890123456) 0) as [E|E]; [lia|].
  cbn [orb].
  destruct (Z.leb_spec (2 ^ 64) ((123 * 2 ^ 64 + 2) / Z.lor a 0xF234567890123456))
    as [Hq|Hq]; [|eauto].
  exfalso.
  assert ((123 * 2 ^ 64 + 2) / Z.lor a 0xF234567890123456 < 2 ^ 64); [|lia].
  apply Z.div_lt_upper_bound; lia.
Qed.

Lemma div__total (portable : bool) (suffix : div_suffix) :
  div_total (div_ portable suffix).
Proof.
  destruct suffix; cbn [div_].
  - apply div32_64_total.
  - apply div64_64_total.
  - intros d Hd. apply div128_64_defined. lia.
Qed.

(** Below [UINT64_MAX] the counter reaches [iters + 1] without
    wrapping and the loop is left. *)
Lemma div64_loop_returns (F : div_func) (forcedep : bool) (m : nat) :
  forall iters k sum : Z,
    div_total F ->
    1 <= k -> iters < UINT64_MAX ->
    Z.of_nat m = iters + 1 - k ->
    exists r : Z, forall fuel : nat,
        (m < fuel)%nat -> div64_loop F forcedep 0 fuel iters k sum = Returned r.
Proof.
  unfold UINT64_MAX.
  induction m as [|m IH]; intros iters k sum HF Hk Hi Hm.
  - exists (to_int64 sum). intros fuel Hf.
    destruct fuel as [|fuel]; [lia|]. cbn [div64_loop].
    destruct (Z.leb_spec k iters); [lia|reflexivity].
  - destruct (HF k ltac:(lia)) as [q Hq].
    destruct (IH iters (k + 1) (wrap64 (sum + q)) HF ltac:(lia) Hi ltac:(lia))
      as [r Hr].
    exists r. intros fuel Hf.
    destruct fuel as [|fuel]; [lia|]. cbn [div64_loop].
    destruct (Z.leb_spec k iters); [|lia].
    rewrite div64_divisor_zero by lia. rewrite Hq.
    rewrite (wrap64_small (k + 1)) by lia.
    apply Hr. lia.
Qed.

(** For [iters = UINT64_MAX] the test [k <= iters] holds for every
    64-bit [k]: the loop is never left through its exit. *)
Lemma div64_loop_max_never_returns (F : div_func) (forcedep : bool) (zero : Z)
    (fuel : nat) :
  forall (k sum r : Z),
    0 <= k < 2 ^ 64 ->
    div64_loop F forcedep zero fuel UINT64_MAX k sum <> Returned r.
Proof.
  unfold UINT64_MAX.
  induction fuel as [|fuel IH]; intros k sum r Hk; [discriminate|].
  cbn [div64_loop].
  destruct (Z.leb_spec k (2 ^ 64 - 1)); [|lia].
  destruct (F _) as [q|]; [|discriminate].
  apply IH, wrap64_range.
Qed.

Lemma returns_max_absurd (F : div_func) (forcedep : bool) (r : Z) :
  ~ returns (fun fuel => div64_templ F forcedep fuel UINT64_MAX) r.
Proof.
  intros [passes Hp]. specialize (Hp passes (Nat.le_refl _)).
  unfold div64_templ, div64_templ_from in Hp.
  revert Hp. apply div64_loop_max_never_returns. lia.
Qed.

Lemma div64_templ_returns (portable : bool) (suffix : div_suffix)
    (forcedep : bool) (n : Z) :
  0 <= n < UINT64_MAX ->
  exists r : Z, returns (fun fuel => div64_templ (div_ portable suffix) forcedep fuel n) r.
Proof.
  intros Hn.
  destruct (div64_loop_returns (div_ portable suffix) forcedep (Z.to_nat n)
              n 1 0 (div__total portable suffix) ltac:(lia) ltac:(lia) ltac:(lia))
    as [r Hr].
  exists r, (S (Z.to_nat n)). intros fuel Hf.
  unfold div64_templ, div64_templ_from, always_zero. apply Hr. lia.
Qed.

Lemma div_lat_tput_lockstep (F : div_func) (fuel : nat) (n : Z) :
  div64_templ F true fuel n = div64_templ F false fuel n.
Proof.
  unfold div64_templ, div64_templ_from, always_zero.
  apply div64_loop_forcedep. lia.
Qed.

(** The divisors the loop hands to [F] while the counter cannot wrap. *)
Lemma div64_divisors_counter (F : div_func) (forcedep : bool) (fuel : nat) :
  forall iters k sum : Z,
    1 <= k -> iters < UINT64_MAX ->
    Forall (fun kd : Z * Z => kd.2 = kd.1 /\ 1 <= kd.2)
           (div64_divisors F forcedep 0 fuel iters k sum).
Proof.
  unfold UINT64_MAX.
  induction fuel as [|fuel IH]; intros iters k sum Hk Hi; [constructor|].
  cbn [div64_divisors].
  destruct (Z.leb_spec k iters); [|constructor].
  rewrite div64_divisor_zero by lia.
  constructor; [cbn; lia|].
  destruct (F k) as [q|]; [|constructor].
  rewrite (wrap64_small (k + 1)) by lia.
  apply IH; lia.
Qed.

Lemma div64_loop_no_fault (F : div_func) (forcedep : bool) (fuel : nat) :
  forall iters k sum : Z,
    div_total F ->
    1 <= k -> iters < UINT64_MAX ->
    div64_loop F forcedep 0 fuel iters k sum <> Fault.
Proof.
  unfold UINT64_MAX.
  induction fuel as [|fuel IH]; intros iters k sum HF Hk Hi; [discriminate|].
  cbn [div64_loop].
  destruct (Z.leb_spec k iters); [|discriminate].
  rewrite div64_divisor_zero by lia.
  destruct (HF k ltac:(lia)) as [q ->].
  rewrite (wrap64_small (k + 1)) by lia.
  apply IH; [assumption | lia | lia].
Qed.

(** For [iters = UINT64_MAX] the loop walks the counter up to
    [UINT64_MAX] itself: [j] passes take it from [k] to [k + j]. *)
Lemma div64_loop_max_skip (F : div_func) (forcedep : bool) (j : nat) :
  forall (fuel : nat) (k sum : Z),
    div_total F ->
    1 <= k -> k + Z.of_nat j <= UINT64_MAX ->
    exists sum' : Z,
      div64_loop F forcedep 0 (j + fuel) UINT64_MAX k sum =
      div64_loop F forcedep 0 fuel UINT64_MAX (k + Z.of_nat j) sum' /\
      forall kd : Z * Z,
        In kd (div64_divisors F forcedep 0 fuel UINT64_MAX (k + Z.of_nat j) sum') ->
        In kd (div64_divisors F forcedep 0 (j + fuel) UINT64_MAX k sum).
Proof.
  induction j as [|j IH]; intros fuel k sum HF Hk Hj.
  - exists sum. rewrite Z.add_0_r. cbn [Nat.add]. auto.
  - destruct (HF k ltac:(unfold UINT64_MAX in *; lia)) as [q Hq].
    destruct (IH fuel (k + 1) (wrap64 (sum + q)) HF ltac:(lia) ltac:(lia))
      as [sum' [Hl Hd]].
    exists sum'.
    replace (k + Z.of_nat (S j)) with (k + 1 + Z.of_nat j) by lia.
    cbn [Nat.add div64_loop div64_divisors].
    destruct (Z.leb_spec k UINT64_MAX); [|lia].
    rewrite div64_divisor_zero by (unfold UINT64_MAX in *; lia).
    rewrite Hq.
    rewrite (wrap64_small (k + 1)) by (unfold UINT64_MAX in *; lia).
    split; [exact Hl|].
    intros kd Hkd. right. now apply Hd.
Qed.

(** The two passes that follow: the counter wraps to [0], and [0] is
    the next divisor. *)
Lemma div64_loop_max_wrap (forcedep : bool) (sum : Z) :
  div64_loop div64_64 forcedep 0 2 UINT64_MAX UINT64_MAX sum = Fault /\
  In (0, 0) (div64_divisors div64_64 forcedep 0 2 UINT64_MAX UINT64_MAX sum).
Proof.
  cbn [div64_loop div64_divisors].
  change (UINT64_MAX <=? UINT64_MAX) with true. cbv iota.
  rewrite div64_divisor_zero by (unfold UINT64_MAX; lia).
  change (div64_64 UINT64_MAX) with (Some 0). cbv iota.
  change (wrap64 (UINT64_MAX + 1)) with 0.
  change (0 <=? UINT64_MAX) with true. cbv iota.
  rewrite div64_divisor_zero by lia.
  change (div64_64 0) with (@None Z).
  split; [reflexivity|]. right. left. reflexivity.
Qed.

End DivProps.

Example div_tput_inline_3 : div_tput_inline false s32_64 4 3 = Returned 559936476.
Proof. reflexivity. Qed.

Example div_lat_noinline_3 : div_lat_noinline false s32_64 4 3 = Returned 559936476.
Proof. reflexivity. Qed.

Example div_lat_inline128_2 : div_lat_inline false s128_64 3 2 = Returned 260.
Proof. reflexivity. Qed.

(** C3 (amended): for every divisor width and every iteration count [n]
    with [0 < n < 2^64 - 1], the latency kernel and the throughput kernel of
    that width both return, and return the same sum; this holds for the
    inlined pair and for the non-inlined pair. *)
Theorem div_lat_tput_same (portable : bool) (suffix : div_suffix) (n : Z) :
  0 < n < UINT64_MAX ->
  return_same (fun fuel => div_lat_inline portable suffix fuel n)
              (fun fuel => div_tput_inline portable suffix fuel n) /\
  return_same (fun fuel => div_lat_noinline portable suffix fuel n)
              (fun fuel => div_tput_noinline portable suffix fuel n).
Proof.
  intros Hn.
  destruct (div64_templ_returns portable suffix true n ltac:(lia)) as [r [passes Hr]].
  assert (Ht : returns (fun fuel => div64_templ (div_ portable suffix) false fuel n) r).
  { exists passes. intros fuel Hf. rewrite <- div_lat_tput_lockstep. now apply Hr. }
  split; exists r; unfold div_lat_inline, div_tput_inline, div_lat_noinline,
    div_tput_noinline; rewrite ?no_inline_eq; (split; [now exists passes | exact Ht]).
Qed.

Lemma div_lat_tput_same_witness :
  return_same (fun fuel => div_lat_inline false s64_64 fuel 7)
              (fun fuel => div_tput_inline false s64_64 fuel 7) /\
  return_same (fun fuel => div_lat_noinline false s64_64 fuel 7)
              (fun fuel => div_tput_noinline false s64_64 fuel 7).
Proof.
  apply (div_lat_tput_same false s64_64 7). unfold UINT64_MAX. lia.
Defined.

(** C3 as stated fails: for the iteration count [2^64 - 1], which is
    positive, the 64-bit latency and throughput kernels do not return. *)
Lemma div_lat_tput_max_no_return :
  0 < UINT64_MAX /\
  ~ return_same (fun fuel => div_lat_inline false s64_64 fuel UINT64_MAX)
                (fun fuel => div_tput_inline false s64_64 fuel UINT64_MAX).
Proof.
  split; [reflexivity|].
  intros [r [Hr _]]. revert Hr. apply returns_max_absurd.
Qed.

(** C8 (amended): for every divisor width, both dependency variants and
    every iteration count [n] with [0 < n < 2^64 - 1], the always-inlined
    kernel and the never-inlined kernel both return, and return the same
    value. *)
Theorem div_inline_noinline_same (portable : bool) (suffix : div_suffix) (n : Z) :
  0 < n < UINT64_MAX ->
  return_same (fun fuel => div_lat_inline portable suffix fuel n)
              (fun fuel => div_lat_noinline portable suffix fuel n) /\
  return_same (fun fuel => div_tput_inline portable suffix fuel n)
              (fun fuel => div_tput_noinline portable suffix fuel n).
Proof.
  intros Hn.
  destruct (div64_templ_returns portable suffix true n ltac:(lia)) as [r1 H1].
  destruct (div64_templ_returns portable suffix false n ltac:(lia)) as [r2 H2].
  split; [exists r1 | exists r2];
    unfold div_lat_inline, div_tput_inline, div_lat_noinline, div_tput_noinline;
    rewrite no_inline_eq; split; assumption.
Qed.

Lemma div_inline_noinline_same_witness :
  return_same (fun fuel => div_lat_inline true s128_64 fuel 12)
              (fun fuel => div_lat_noinline true s128_64 fuel 12) /\
  return_same (fun fuel => div_tput_inline true s128_64 fuel 12)
              (fun fuel => div_tput_noinline true s128_64 fuel 12).
Proof.
  apply (div_inline_noinline_same true s128_64 12). unfold UINT64_MAX. lia.
Defined.

(** C8 as stated fails: for the iteration count [2^64 - 1] the inlined
    and the non-inlined 32-bit throughput kernels do not return. *)
Lemma div_inline_noinline_max_no_return :
  0 < UINT64_MAX /\
  ~ return_same (fun fuel => div_tput_inline false s32_64 fuel UINT64_MAX)
                (fun fuel => div_tput_noinline false s32_64 fuel UINT64_MAX).
Proof.
  split; [reflexivity|].
  intros [r [Hr _]]. revert Hr. apply returns_max_absurd.
Qed.

(** C9 (amended): when the opaque value [zero] is 0 and the iteration
    count is below [2^64 - 1], every divisor handed to the division, in the
    forced-dependency and in the independent variant, equals the loop
    counter [k] and is at least 1, and the kernel never reaches the
    division-by-zero trap. *)
Theorem div64_divisor_is_counter (portable : bool) (suffix : div_suffix)
    (forcedep : bool) (zero iters : Z) (fuel : nat) :
  zero = 0 ->
  0 <= iters < UINT64_MAX ->
  Forall (fun kd : Z * Z => kd.2 = kd.1 /\ 1 <= kd.2)
         (div64_divisors (div_ portable suffix) forcedep zero fuel iters 1 0) /\
  div64_templ_from zero (div_ portable suffix) forcedep fuel iters <> Fault.
Proof.
  intros -> Hi. split.
  - apply div64_divisors_counter; lia.
  - unfold div64_templ_from.
    apply div64_loop_no_fault; [apply div__total | lia | lia].
Qed.

Lemma div64_divisor_is_counter_witness :
  Forall (fun kd : Z * Z => kd.2 = kd.1 /\ 1 <= kd.2)
         (div64_divisors (div_ false s64_64) true 0 6 5 1 0) /\
  div64_templ_from 0 (div_ false s64_64) true 6 5 <> Fault.
Proof.
  apply (div64_divisor_is_counter false s64_64 true 0 5 6);
    [reflexivity | unfold UINT64_MAX; lia].
Defined.

(** C9 as stated fails: with [zero = 0] and the iteration count
    [2^64 - 1] the loop counter wraps to 0, the divisor 0 is handed to the
    64-bit division and the kernel traps. *)
Lemma div64_divisor_zero_at_max :
  exists fuel : nat,
    In (0, 0) (div64_divisors div64_64 false always_zero fuel UINT64_MAX 1 0) /\
    div64_templ div64_64 false fuel UINT64_MAX = Fault.
Proof.
  exists (Z.to_nat (UINT64_MAX - 1) + 2)%nat.
  destruct (div64_loop_max_skip div64_64 false (Z.to_nat (UINT64_MAX - 1)) 2 1 0
              div64_64_total ltac:(lia) ltac:(unfold UINT64_MAX; lia))
    as [sum' [Hl Hd]].
  replace (1 + Z.of_nat (Z.to_nat (UINT64_MAX - 1))) with UINT64_MAX in *
    by (unfold UINT64_MAX; lia).
  destruct (div64_loop_max_wrap false sum') as [Hf Hz].
  unfold div64_templ, div64_templ_from, always_zero. split.
  - apply Hd, Hz.
  - rewrite Hl. exact Hf.
Qed.

(** ** Strided stores *)

Section StridedStores.

(** Masking with [2^j - 1] leaves an offset below [2^j]. *)
Lemma masked_offset_range (x j : Z) :
  0 <= j -> 0 <= Z.land x (2 ^ j - 1) < 2 ^ j.
Proof.
  intros Hj.
  replace (2 ^ j - 1) with (Z.ones j) by (rewrite Z.ones_equiv; lia).
  rewrite Z.land_ones by assumption.
  apply Z.mod_pos_bound. now apply Z.pow_pos_nonneg.
Qed.

Lemma strided_stores_body_shape (T : store_type) (args : mem_args) (i j : Z) :
  0 <= j -> mask args = 2 ^ j - 1 ->
  pass_shape (2 ^ j) args (strided_stores_body T args i).
Proof.
  intros Hj Hm. unfold strided_stores_body, pass_shape. cbn [target].
  rewrite Hm. split; [now apply masked_offset_range|]. lia.
Qed.

Lemma strided_stores_loop_shape (T : store_type) (args : mem_args) (j : Z)
    (fuel : nat) :
  0 <= j -> mask args = 2 ^ j - 1 ->
  forall iters i : Z,
    Forall (pass_shape (2 ^ j) args) (strided_stores_loop T args fuel iters i).
Proof.
  intros Hj Hm. induction fuel as [|fuel IH]; intros iters i; [constructor|].
  cbn [strided_stores_loop]. destruct (i <? iters); [|constructor].
  constructor; [now apply strided_stores_body_shape | apply IH].
Qed.

(** When four strides divide the region size, the masked offset of a
    step whose counter is a multiple of four leaves room for the four
    stores of the step. *)
Lemma masked_offset_aligned (i stride j : Z) :
  0 <= j <= 64 -> 0 < stride -> (4 * stride | 2 ^ j) -> i mod 4 = 0 ->
  0 <= Z.land (wrap64 (i * stride)) (2 ^ j - 1) /\
  Z.land (wrap64 (i * stride)) (2 ^ j - 1) + 4 * stride <= 2 ^ j.
Proof.
  intros Hj Hs [c Hc] Hi.
  replace (2 ^ j - 1) with (Z.ones j) by (rewrite Z.ones_equiv; lia).
  rewrite Z.land_ones by lia. unfold wrap64.
  assert (Hd : (2 ^ j | 2 ^ 64)).
  { exists (2 ^ (64 - j)). rewrite <- Z.pow_add_r by lia. f_equal. lia. }
  rewrite (Z.mod_mod_divide _ _ _ Hd).
  apply Z.mod_divide in Hi; [|lia]. destruct Hi as [m Hm].
  assert (Hp : 0 < 2 ^ j) by (apply Z.pow_pos_nonneg; lia).
  assert (Hcpos : 0 < c) by nia.
  rewrite Hc.
  replace (i * stride) with (m * (4 * stride)) by (subst i; ring).
  rewrite Z.mul_mod_distr_r by lia.
  pose proof (Z.mod_pos_bound m c Hcpos) as Hb.
  split; nia.
Qed.

Lemma strided_stores_body_inside (T : store_type) (args : mem_args) (i j : Z) :
  0 <= j <= 64 -> mask args = 2 ^ j - 1 ->
  0 < stride args -> (4 * stride args | 2 ^ j) -> i mod 4 = 0 ->
  Forall (target_inside (2 ^ j)) (strided_stores_body T args i) /\
  (sizeof T <= stride args ->
   Forall (bytes_inside (2 ^ j)) (strided_stores_body T args i)).
Proof.
  intros Hj Hm Hs Hd Hi.
  destruct (masked_offset_aligned i (stride args) j Hj Hs Hd Hi) as [H0 H4].
  unfold strided_stores_body. rewrite Hm.
  split; [|intros Hw];
    repeat constructor; cbn [target width]; lia.
Qed.

Lemma strided_stores_loop_inside (T : store_type) (args : mem_args) (j : Z)
    (fuel : nat) :
  0 <= j <= 64 -> mask args = 2 ^ j - 1 ->
  0 < stride args -> (4 * stride args | 2 ^ j) ->
  forall iters i : Z,
    i mod 4 = 0 ->
    Forall (Forall (target_inside (2 ^ j))) (strided_stores_loop T args fuel iters i) /\
    (sizeof T <= stride args ->
     Forall (Forall (bytes_inside (2 ^ j))) (strided_stores_loop T args fuel iters i)).
Proof.
  intros Hj Hm Hs Hd. induction fuel as [|fuel IH]; intros iters i Hi.
  - split; constructor.
  - cbn [strided_stores_loop]. destruct (i <? iters); [|split; constructor].
    destruct (strided_stores_body_inside T args i j Hj Hm Hs Hd Hi) as [Ht Hb].
    assert (Hn : wrap64 (i + 4) mod 4 = 0).
    { unfold wrap64. rewrite Z.mod_mod_divide by (exists (2 ^ 62); reflexivity).
      replace (i + 4) with (i + 1 * 4) by lia. now rewrite Z_mod_plus_full. }
    destruct (IH iters (wrap64 (i + 4)) Hn) as [IHt IHb].
    split; [|intros Hw]; constructor; auto.
Qed.

End StridedStores.

Example strided_stores_wrap :
  map (map target)
      (strided_stores_4byte 3 12 {| region := 4096; stride := 16; mask := 127 |})
  = [[0; 16; 32; 48]; [64; 80; 96; 112]; [0; 16; 32; 48]].
Proof. reflexivity. Qed.

(** C1 (amended): for every element width, every power-of-two region
    size with [mask = size - 1] and every iteration count, every store
    targets an offset below the region size when four strides divide the
    region size (and then, for a stride of at least the element width, no
    byte written escapes the region).  For any stride the first store of
    each unrolled loop step targets an offset below the region size, and
    the other three stores of the step target that offset plus one, two
    and three strides, without masking. *)
Theorem strided_stores_in_region (T : store_type) (args : mem_args)
    (size j iters : Z) (fuel : nat) :
  0 <= j <= 64 -> size = 2 ^ j -> mask args = size - 1 ->
  Forall (pass_shape size args) (strided_stores T fuel iters args) /\
  (0 < stride args -> (4 * stride args | size) ->
   Forall (Forall (target_inside size)) (strided_stores T fuel iters args) /\
   (sizeof T <= stride args ->
    Forall (Forall (bytes_inside size)) (strided_stores T fuel iters args))).
Proof.
  intros Hj -> Hm. unfold strided_stores. split.
  - apply strided_stores_loop_shape; [lia | exact Hm].
  - intros Hs Hd. now apply strided_stores_loop_inside.
Qed.

Lemma strided_stores_in_region_witness :
  let args := {| region := 65536; stride := 64; mask := 4095 |} in
  Forall (pass_shape 4096 args) (strided_stores uint64_t 8 32 args) /\
  Forall (Forall (target_inside 4096)) (strided_stores uint64_t 8 32 args) /\
  Forall (Forall (bytes_inside 4096)) (strided_stores uint64_t 8 32 args).
Proof.
  cbv zeta.
  destruct (strided_stores_in_region uint64_t
              {| region := 65536; stride := 64; mask := 4095 |} 4096 12 32 8
              ltac:(lia) eq_refl eq_refl) as [Hshape Hin].
  destruct (Hin ltac:(cbn; lia) ltac:(exists 16; reflexivity)) as [Ht Hb].
  split; [exact Hshape|]. split; [exact Ht|]. apply Hb. cbn. lia.
Defined.

(** C1 as stated fails: with a region of [128 = 2^7] bytes, mask 127 and
    stride 64, the first loop step already stores at offsets 128 and 192,
    outside the region. *)
Lemma strided_stores_escape :
  let args := {| region := 65536; stride := 64; mask := 128 - 1 |} in
  128 = 2 ^ 7 /\
  exists s : store,
    In s (concat (strided_stores_1byte 1 4 args)) /\ ~ target s < 128.
Proof.
  cbv zeta. split; [reflexivity|].
  exists {| target := 192; width := 1 |}. split.
  - cbn. auto.
  - cbn. lia.
Qed.

(** ** Arrays *)

Section Arrays.

Lemma read_lookup (a : list Z) (i : nat) (x : Z) :
  a !! i = Some x -> read a (Z.of_nat i) = Returned x.
Proof.
  intros H. unfold read.
  destruct (Z.ltb_spec (Z.of_nat i) 0); [lia|].
  now rewrite Nat2Z.id, H.
Qed.

(** A read inside the array returns an element of the array. *)
Lemma read_in_bounds (bits : Z) (n : nat) (a : list Z) (i : Z) :
  array_of bits n a -> 0 <= i < Z.of_nat n ->
  exists x : Z, read a i = Returned x /\ 0 <= x < 2 ^ bits.
Proof.
  intros [Hl Ha] Hi.
  destruct (lookup_lt_is_Some_2 a (Z.to_nat i) ltac:(lia)) as [x Hx].
  exists x. split.
  - rewrite <- (Z2Nat.id i) by lia. now apply read_lookup.
  - rewrite Forall_lookup in Ha. exact (Ha _ _ Hx).
Qed.

Lemma array_of_replicate (bits : Z) (n : nat) (x : Z) :
  0 <= x < 2 ^ bits -> array_of bits n (replicate n x).
Proof.
  intros Hx. split; [apply length_replicate | now apply Forall_replicate].
Qed.

(** The decrement of the benchmark loops: [--iters] on a positive
    count does not wrap. *)
Lemma wrap64_pred (iters : Z) :
  1 <= iters < 2 ^ 64 -> wrap64 (iters - 1) = iters - 1.
Proof. intros H. apply wrap64_small. lia. Qed.

End Arrays.

(** ** Table lookup *)

Section Crc8.

Lemma lxor_byte (a b : Z) :
  0 <= a < 2 ^ 8 -> 0 <= b < 2 ^ 8 -> 0 <= Z.lxor a b < 2 ^ 8.
Proof.
  intros Ha Hb.
  assert (Hn : 0 <= Z.lxor a b) by (apply Z.lxor_nonneg; lia).
  split; [exact Hn|].
  destruct (Z.eq_dec (Z.lxor a b) 0) as [E|E]; [rewrite E; lia|].
  apply Z.log2_lt_pow2; [lia|].
  pose proof (Z.log2_lxor a b ltac:(lia) ltac:(lia)) as Hl.
  assert (Z.log2 a < 8).
  { destruct (Z.eq_dec a 0) as [->|]; [cbn; lia|]. apply Z.log2_lt_pow2; lia. }
  assert (Z.log2 b < 8).
  { destruct (Z.eq_dec b 0) as [->|]; [cbn; lia|]. apply Z.log2_lt_pow2; lia. }
  lia.
Qed.

(** Every entry of the table is zero. *)
Lemma read_crc8_table (idx : Z) :
  0 <= idx < 2 ^ 8 -> read crc8_table idx = Returned 0.
Proof.
  intros H. rewrite <- (Z2Nat.id idx) by lia.
  apply read_lookup. unfold crc8_table.
  apply lookup_replicate_2. change (2 ^ 8) with 256 in H. lia.
Qed.

(** After at least one lookup the accumulator is zero. *)
Lemma crc8_loop_zero (buf : list Z) (len : nat) (n : nat) :
  array_of 8 len buf ->
  forall pos crc : Z,
    0 <= pos -> pos + Z.of_nat n <= Z.of_nat len ->
    0 <= crc < 2 ^ 8 ->
    crc8_loop n buf pos crc = Returned (if n is O then crc else 0).
Proof.
  intros Hb. induction n as [|n IH]; intros pos crc Hp Hn Hc; [reflexivity|].
  cbn [crc8_loop].
  destruct (read_in_bounds 8 len buf pos Hb ltac:(lia)) as [byte [-> Hbyte]].
  cbn [mbind outcome_bind].
  rewrite read_crc8_table by now apply lxor_byte.
  cbn [mbind outcome_bind].
  rewrite IH by lia. now destruct n.
Qed.

Lemma crc8_zero (buf : list Z) (crc : Z) :
  array_of 8 4096 buf -> crc8 crc buf 4096 = Returned 0.
Proof.
  intros Hb. unfold crc8.
  rewrite (crc8_loop_zero buf 4096 (Z.to_nat 4096) Hb); [reflexivity|lia|lia|].
  change 255 with (Z.ones 8). rewrite Z.land_ones by lia.
  apply Z.mod_pos_bound. lia.
Qed.

Lemma crc8_bench_loop_zero (buf : list Z) (m : nat) :
  array_of 8 4096 buf ->
  forall (fuel : nat) (crc iters : Z),
    iters = Z.of_nat m + 1 -> iters < 2 ^ 64 ->
    (m < fuel)%nat ->
    crc8_bench_loop fuel buf crc iters = Returned 0.
Proof.
  intros Hb. induction m as [|m IH]; intros fuel crc iters Hi Hr Hf;
    (destruct fuel as [|fuel]; [lia|]); cbn [crc8_bench_loop];
    rewrite crc8_zero by assumption; cbn [mbind outcome_bind];
    rewrite wrap64_pred by lia;
    destruct (Z.eqb_spec (iters - 1) 0); try lia; try reflexivity.
  apply IH; lia.
Qed.

End Crc8.

Example crc8_bench_2 : crc8_bench (replicate 4096 255) 2 2 = Returned 0.
Proof. vm_compute. reflexivity. Qed.

(** C7: with the all-zero 256-entry table, for every iteration count of
    at least 1 and every content of the 4096-byte buffer, the table-lookup
    kernel returns 0. *)
Theorem crc8_bench_zero (buf : list Z) (iters : Z) :
  array_of 8 4096 buf ->
  1 <= iters < 2 ^ 64 ->
  returns (fun fuel => crc8_bench buf fuel iters) 0.
Proof.
  intros Hb Hi. exists (Z.to_nat iters). intros fuel Hf.
  unfold crc8_bench.
  apply (crc8_bench_loop_zero buf (Z.to_nat (iters - 1)) Hb); lia.
Qed.

Lemma crc8_bench_zero_witness :
  returns (fun fuel => crc8_bench (replicate 4096 171) fuel 3) 0.
Proof.
  apply (crc8_bench_zero (replicate 4096 171) 3).
  - apply array_of_replicate. lia.
  - lia.
Defined.

(** ** Indirect summation *)

Section AddIndirect.

Variable NDEBUG : bool.

Lemma read_zero_offsets (L : nat) (i : Z) :
  0 <= i < Z.of_nat L -> read (replicate L 0) i = Returned 0.
Proof.
  intros Hi. rewrite <- (Z2Nat.id i) by lia.
  apply read_lookup, lookup_replicate_2. lia.
Qed.

Lemma wrap32_add_l (x y : Z) : wrap32 (wrap32 x + y) = wrap32 (x + y).
Proof. unfold wrap32. apply Zplus_mod_idemp_l. Qed.

(** With all offsets zero each pass adds [data[0]] to both sums. *)
Lemma add_indirect_loop_zero (data : list Z) (L : nat) (v : Z) (n : nat) :
  data !! 0%nat = Some v ->
  forall (fuel : nat) (i sum1 sum2 : Z),
    i = 2 * (Z.of_nat n + 1) -> i <= Z.of_nat L -> i < 2 ^ 64 ->
    (n < fuel)%nat ->
    add_indirect_loop fuel data (replicate L 0) i sum1 sum2 =
    Returned (wrap32 (sum1 + (Z.of_nat n + 1) * v),
              wrap32 (sum2 + (Z.of_nat n + 1) * v)).
Proof.
  intros Hv. apply (read_lookup data 0) in Hv. change (Z.of_nat 0) with 0 in Hv.
  induction n as [|n IH]; intros fuel i sum1 sum2 Hi HL Hr Hf;
    (destruct fuel as [|fuel]; [lia|]); cbn [add_indirect_loop];
    rewrite (wrap64_small (i - 1)), (wrap64_small (i - 2)) by lia;
    rewrite !read_zero_offsets by lia; cbn [mbind outcome_bind];
    rewrite Hv; cbn [mbind outcome_bind];
    destruct (Z.eqb_spec (i - 2) 0); try lia.
  - do 2 f_equal; f_equal; lia.
  - rewrite (IH fuel (i - 2)) by lia.
    rewrite !wrap32_add_l. do 2 f_equal; f_equal; lia.
Qed.

Lemma add_indirect_inner_zero (data : list Z) (L v : Z) :
  data !! 0%nat = Some v ->
  2 <= L < 2 ^ 64 -> L mod 2 = 0 ->
  add_indirect_inner NDEBUG data (replicate (Z.to_nat L) 0) L =
  Returned (wrap32 (L * v)).
Proof.
  intros Hv HL He. unfold add_indirect_inner, assert.
  destruct (Z.leb_spec 2 L); [|lia]. rewrite He. cbn [Z.eqb andb].
  rewrite orb_true_r. cbn [mbind outcome_bind].
  apply Z.mod_divide in He; [|lia]. destruct He as [h Hh].
  rewrite (add_indirect_loop_zero data (Z.to_nat L) v (Z.to_nat (h - 1)) Hv) by lia.
  cbn [mbind outcome_bind mret outcome_ret].
  f_equal. unfold wrap32.
  rewrite <- Zplus_mod. f_equal. rewrite Z2Nat.id by lia. lia.
Qed.

End AddIndirect.

Example add_indirect_inner_6 :
  add_indirect_inner false [7; 1; 2] (replicate 6 0) 6 = Returned 42.
Proof. reflexivity. Qed.

Example add_indirect_shift_inner_6 :
  add_indirect_shift_inner [7; 1; 2] (replicate 6 0) 6 = Returned 42.
Proof. reflexivity. Qed.

Example add_indirect_inner_odd :
  add_indirect_inner false [7; 1; 2] (replicate 3 0) 3 = Fault.
Proof. reflexivity. Qed.

(** C5 (amended): given an all-zero offsets array of even length
    [L >= 2] and a data buffer whose first element is [v], the gather
    function returns [L * v] reduced modulo [2^32], the wrapping sum of
    its [uint32_t] accumulators; it returns [L * v] itself when that
    product fits 32 bits. *)
Theorem add_indirect_inner_zero_offsets (NDEBUG : bool) (data : list Z) (L v : Z) :
  data !! 0%nat = Some v ->
  2 <= L < 2 ^ 64 -> L mod 2 = 0 ->
  add_indirect_inner NDEBUG data (replicate (Z.to_nat L) 0) L =
  Returned ((L * v) mod 2 ^ 32) /\
  (0 <= L * v < 2 ^ 32 ->
   add_indirect_inner NDEBUG data (replicate (Z.to_nat L) 0) L = Returned (L * v)).
Proof.
  intros Hv HL He.
  pose proof (add_indirect_inner_zero NDEBUG data L v Hv HL He) as H.
  unfold wrap32 in H. split; [exact H|].
  intros Hs. rewrite H. f_equal. now apply Z.mod_small.
Qed.

Lemma add_indirect_inner_zero_offsets_witness :
  add_indirect_inner false [1000000; 5] (replicate (Z.to_nat 4096) 0) 4096 =
  Returned ((4096 * 1000000) mod 2 ^ 32) /\
  add_indirect_inner false [1000; 5] (replicate (Z.to_nat 4096) 0) 4096 =
  Returned (4096 * 1000).
Proof.
  split.
  - refine (proj1 (add_indirect_inner_zero_offsets false [1000000; 5] 4096 1000000 _ _ _));
      [reflexivity | lia | reflexivity].
  - refine (proj2 (add_indirect_inner_zero_offsets false [1000; 5] 4096 1000 _ _ _) _);
      [reflexivity | lia | reflexivity | lia].
Defined.

(** C5 as stated fails: with two zero offsets and first data element
    [2^31] the function returns 0, not [2 * 2^31]. *)
Lemma add_indirect_inner_wraps :
  add_indirect_inner false [2 ^ 31] (replicate 2 0) 2 = Returned 0 /\
  0 <> 2 * 2 ^ 31.
Proof. split; [reflexivity | lia]. Qed.

(** ** Multiply chains *)

#[global] Instance cong32_equiv : Equivalence cong32.
Proof.
  split; unfold cong32; [intros x | intros x y | intros x y z]; congruence.
Qed.

#[global] Instance cong32_mul : Proper (cong32 ==> cong32 ==> cong32) Z.mul.
Proof.
  intros a b Hab c d Hcd. unfold cong32, wrap32 in *.
  rewrite (Z.mul_mod a c), (Z.mul_mod b d), Hab, Hcd by lia. reflexivity.
Qed.

Section MulChain.

Lemma wrap32_cong (x : Z) : cong32 (wrap32 x) x.
Proof. unfold cong32, wrap32. apply Zmod_mod. Qed.

(** Four elements through the single accumulator against one element
    through each of the four accumulators. *)
Lemma mul_chain_chunk (p p1 p2 p3 p4 a b c d : Z) :
  cong32 (p1 * p2 * p3 * p4) p ->
  cong32 (wrap32 (p1 * a) * wrap32 (p2 * b) * wrap32 (p3 * c) * wrap32 (p4 * d))
         (wrap32 (wrap32 (wrap32 (wrap32 (p * a) * b) * c) * d)).
Proof.
  intros H. rewrite !wrap32_cong. rewrite <- H.
  replace (p1 * a * (p2 * b) * (p3 * c) * (p4 * d))
    with (p1 * p2 * p3 * p4 * a * b * c * d) by ring.
  reflexivity.
Qed.

Lemma read_inside (data : list Z) (i : Z) :
  0 <= i < Z.of_nat (length data) ->
  exists x : Z, read data i = Returned x.
Proof.
  intros Hi.
  destruct (lookup_lt_is_Some_2 data (Z.to_nat i) ltac:(lia)) as [x Hx].
  exists x. rewrite <- (Z2Nat.id i) by lia. now apply read_lookup.
Qed.

(** The two loops side by side over [n] chunks of four elements: they
    are both left, with congruent products. *)
Lemma mul_chain_tandem (data : list Z) (len : Z) (n : nat) :
  len <= Z.of_nat (length data) -> len < 2 ^ 64 ->
  forall (fuel1 fuel4 : nat) (i p p1 p2 p3 p4 : Z),
    0 <= i -> i + 4 * Z.of_nat n = len ->
    (4 * n < fuel1)%nat -> (n < fuel4)%nat ->
    0 <= p < 2 ^ 32 ->
    cong32 (p1 * p2 * p3 * p4) p ->
    exists r q1 q2 q3 q4 : Z,
      mul_chain_loop fuel1 data len i p = Returned r /\
      mul_chain4_loop fuel4 data len i p1 p2 p3 p4 = Returned (q1, q2, q3, q4) /\
      0 <= r < 2 ^ 32 /\
      cong32 (q1 * q2 * q3 * q4) r.
Proof.
  intros Hlen Hmax.
  induction n as [|n IH]; intros fuel1 fuel4 i p p1 p2 p3 p4 Hi Hn Hf1 Hf4 Hp Hc.
  - destruct fuel1 as [|fuel1]; [lia|]. destruct fuel4 as [|fuel4]; [lia|].
    cbn [mul_chain_loop mul_chain4_loop].
    destruct (Z.ltb_spec i len); [lia|].
    exists p, p1, p2, p3, p4. auto.
  - do 4 (destruct fuel1 as [|fuel1]; [lia|]).
    destruct fuel4 as [|fuel4]; [lia|].
    destruct (read_inside data i ltac:(lia)) as [a Ha].
    destruct (read_inside data (i + 1) ltac:(lia)) as [b Hb].
    destruct (read_inside data (i + 2) ltac:(lia)) as [c Hc'].
    destruct (read_inside data (i + 3) ltac:(lia)) as [d Hd].
    destruct (IH fuel1 fuel4 (i + 4)
                (wrap32 (wrap32 (wrap32 (wrap32 (p * a) * b) * c) * d))
                (wrap32 (p1 * a)) (wrap32 (p2 * b)) (wrap32 (p3 * c)) (wrap32 (p4 * d))
                ltac:(lia) ltac:(lia) ltac:(lia) ltac:(lia)
                (wrap32_range _) (mul_chain_chunk _ _ _ _ _ _ _ _ _ Hc))
      as (r & q1 & q2 & q3 & q4 & H1 & H4 & Hr & Hq).
    exists r, q1, q2, q3, q4.
    split; [|split; [|split; assumption]].
    + cbn [mul_chain_loop].
      destruct (Z.ltb_spec i len); [|lia].
      rewrite Ha. cbn [mbind outcome_bind].
      rewrite (wrap64_small (i + 1)) by lia.
      destruct (Z.ltb_spec (i + 1) len); [|lia].
      rewrite Hb. cbn [mbind outcome_bind].
      rewrite (wrap64_small (i + 1 + 1)) by lia.
      replace (i + 1 + 1) with (i + 2) by lia.
      destruct (Z.ltb_spec (i + 2) len); [|lia].
      rewrite Hc'. cbn [mbind outcome_bind].
      rewrite (wrap64_small (i + 2 + 1)) by lia.
      replace (i + 2 + 1) with (i + 3) by lia.
      destruct (Z.ltb_spec (i + 3) len); [|lia].
      rewrite Hd. cbn [mbind outcome_bind].
      rewrite (wrap64_small (i + 3 + 1)) by lia.
      replace (i + 3 + 1) with (i + 4) by lia.
      exact H1.
    + cbn [mul_chain4_loop].
      destruct (Z.ltb_spec i len); [|lia].
      rewrite (wrap64_small (i + 0)), (wrap64_small (i + 1)),
        (wrap64_small (i + 2)), (wrap64_small (i + 3)), (wrap64_small (i + 4)) by lia.
      rewrite Z.add_0_r, Ha. cbn [mbind outcome_bind].
      rewrite Hb. cbn [mbind outcome_bind].
      rewrite Hc'. cbn [mbind outcome_bind].
      rewrite Hd. cbn [mbind outcome_bind].
      exact H4.
Qed.

End MulChain.

Example mul_chain_8 : mul_chain [1; 2; 3; 4; 5; 6; 7; 8] 8 123 = Returned 40320.
Proof. reflexivity. Qed.

Example mul_chain4_8 : mul_chain4 [1; 2; 3; 4; 5; 6; 7; 8] 8 123 = Returned 40320.
Proof. reflexivity. Qed.

Example mul_chain4_short : mul_chain4 [2; 3; 5] 3 123 = Fault.
Proof. reflexivity. Qed.

Lemma mul_chains_agree (data : list Z) (len m : Z) :
  0 <= len < 2 ^ 64 -> len mod 4 = 0 ->
  len <= Z.of_nat (length data) ->
  exists product : Z,
    0 <= product < 2 ^ 32 /\
    mul_chain data len m = Returned product /\
    mul_chain4 data len m = Returned product.
Proof.
  intros Hl H4 Hd.
  apply Z.mod_divide in H4; [|lia]. destruct H4 as [n Hn].
  destruct (mul_chain_tandem data len (Z.to_nat n) Hd ltac:(lia)
              (S (Z.to_nat len)) (S (Z.to_nat len)) 0 1 1 1 1 1
              ltac:(lia) ltac:(lia) ltac:(lia) ltac:(lia) ltac:(lia)
              ltac:(reflexivity))
    as (r & q1 & q2 & q3 & q4 & H1 & Hq & Hr & Hc).
  exists r. unfold mul_chain, mul_chain4.
  rewrite H1, Hq. cbn [mbind outcome_bind mret outcome_ret].
  split; [exact Hr|]. split; [reflexivity|]. f_equal.
  rewrite <- (wrap32_small r Hr).
  change (cong32 (wrap32 (wrap32 (q1 * q2) * q3) * q4) r).
  rewrite !wrap32_cong. exact Hc.
Qed.

(** C6 (amended): for every data array and every length that is a
    multiple of four and within the array, the single-accumulator and the
    four-accumulator multiply chain both return, and return the same
    product in the 32-bit wrapping ring. *)
Theorem mul_chain_mul_chain4_same (data : list Z) (len m : Z) :
  0 <= len < 2 ^ 64 -> len mod 4 = 0 ->
  len <= Z.of_nat (length data) ->
  exists product : Z,
    mul_chain data len m = Returned product /\
    mul_chain4 data len m = Returned product.
Proof.
  intros Hl H4 Hd.
  destruct (mul_chains_agree data len m Hl H4 Hd) as (product & _ & H1 & H2).
  exists product. split; assumption.
Qed.

Lemma mul_chain_mul_chain4_same_witness :
  exists product : Z,
    mul_chain [65536; 3; 65536; 5; 7; 11; 13; 17] 8 123 = Returned product /\
    mul_chain4 [65536; 3; 65536; 5; 7; 11; 13; 17] 8 123 = Returned product.
Proof.
  apply (mul_chain_mul_chain4_same [65536; 3; 65536; 5; 7; 11; 13; 17] 8 123);
    [lia | reflexivity | cbn; lia].
Defined.

(** C6 as stated fails: on the four-element array [2, 3, 5, 7] with the
    shared length 2 both kernels are defined (every read is inside the
    array), the single chain returns 6 and the four-accumulator chain
    returns 210. *)
Lemma mul_chain4_reads_past_len :
  mul_chain [2; 3; 5; 7] 2 123 = Returned 6 /\
  mul_chain4 [2; 3; 5; 7] 2 123 = Returned 210.
Proof. split; reflexivity. Qed.

(** ** Kernels that return the constant 0 *)

Section SinkLoop.

(** The benchmark loop is left after [iters] passes when the work of a
    pass returns. *)
Lemma sink_loop_returns {A : Type} (work : outcome A) (a : A) (m : nat) :
  work = Returned a ->
  forall (fuel : nat) (iters : Z),
    iters = Z.of_nat m + 1 -> iters < 2 ^ 64 ->
    (m < fuel)%nat ->
    sink_loop work fuel iters = Returned 0.
Proof.
  intros ->. induction m as [|m IH]; intros fuel iters Hi Hr Hf;
    (destruct fuel as [|fuel]; [lia|]); cbn [sink_loop mbind outcome_bind];
    rewrite wrap64_pred by lia;
    destruct (Z.eqb_spec (iters - 1) 0); try lia; try reflexivity.
  apply IH; lia.
Qed.

Lemma sink_loop_zero {A : Type} (work : outcome A) (a : A) (iters : Z) :
  work = Returned a ->
  1 <= iters < 2 ^ 64 ->
  returns (fun fuel => sink_loop work fuel iters) 0.
Proof.
  intros Hw Hi. exists (Z.to_nat iters). intros fuel Hf.
  apply (sink_loop_returns work a (Z.to_nat (iters - 1)) Hw); lia.
Qed.

(** The halves summation over an even length inside the array is
    defined. *)
Lemma sum_halves_loop_returns (data : list Z) (len : Z) (n : nat) :
  len <= Z.of_nat (length data) -> len < 2 ^ 64 ->
  forall (fuel : nat) (i top bottom : Z),
    0 <= i -> i + 2 * Z.of_nat n = len -> (n < fuel)%nat ->
    exists r : top_bottom,
      sum_halves_loop fuel data len i top bottom = Returned r.
Proof.
  intros Hlen Hmax.
  induction n as [|n IH]; intros fuel i t b Hi Hn Hf;
    (destruct fuel as [|fuel]; [lia|]); cbn [sum_halves_loop].
  - destruct (Z.ltb_spec i len); [lia|]. eauto.
  - destruct (Z.ltb_spec i len); [|lia].
    destruct (read_inside data i ltac:(lia)) as [x ->].
    rewrite (wrap64_small (i + 1)), (wrap64_small (i + 2)) by lia.
    destruct (read_inside data (i + 1) ltac:(lia)) as [y ->].
    cbn [mbind outcome_bind].
    apply IH; lia.
Qed.

Lemma sum_halves_4096 (buf : list Z) :
  length buf = 4096%nat -> exists r : top_bottom, sum_halves buf 4096 = Returned r.
Proof.
  intros Hb. unfold sum_halves.
  apply (sum_halves_loop_returns buf 4096 (Z.to_nat 2048)); lia.
Qed.

(** The packed-offset loop over all-zero offsets. *)
Lemma add_indirect_shift_loop_zero (data : list Z) (L : nat) (v : Z) (n : nat) :
  data !! 0%nat = Some v ->
  forall (fuel : nat) (i sum1 sum2 : Z),
    i = 2 * (Z.of_nat n + 1) -> i <= Z.of_nat L -> i < 2 ^ 64 ->
    (n < fuel)%nat ->
    add_indirect_shift_loop fuel data (replicate L 0) i sum1 sum2 =
    Returned (wrap32 (sum1 + (Z.of_nat n + 1) * v),
              wrap32 (sum2 + (Z.of_nat n + 1) * v)).
Proof.
  intros Hv. apply (read_lookup data 0) in Hv. change (Z.of_nat 0) with 0 in Hv.
  induction n as [|n IH]; intros fuel i sum1 sum2 Hi HL Hr Hf;
    (destruct fuel as [|fuel]; [lia|]); cbn [add_indirect_shift_loop];
    rewrite (wrap64_small (i - 2)) by lia;
    rewrite !read_zero_offsets by lia; cbn [mbind outcome_bind];
    change (Z.lor 0 (Z.shiftl 0 32)) with 0;
    change (Z.shiftr 0 32) with 0; change (Z.land 0 4294967295) with 0;
    rewrite Hv; cbn [mbind outcome_bind];
    destruct (Z.eqb_spec (i - 2) 0); try lia.
  - do 2 f_equal; f_equal; lia.
  - rewrite (IH fuel (i - 2)) by lia.
    rewrite !wrap32_add_l. do 2 f_equal; f_equal; lia.
Qed.

Lemma add_indirect_shift_inner_4096 (buf : list Z) :
  length buf = 4096%nat ->
  exists r : Z, add_indirect_shift_inner buf (replicate 4096 0) 4096 = Returned r.
Proof.
  intros Hb.
  destruct (lookup_lt_is_Some_2 buf 0 ltac:(lia)) as [v Hv].
  unfold add_indirect_shift_inner.
  rewrite (add_indirect_shift_loop_zero buf 4096 v (Z.to_nat 2047) Hv) by lia.
  cbn [mbind outcome_bind mret outcome_ret]. eauto.
Qed.

Lemma add_indirect_inner_4096 (NDEBUG : bool) (buf : list Z) :
  length buf = 4096%nat ->
  exists r : Z, add_indirect_inner NDEBUG buf (replicate 4096 0) 4096 = Returned r.
Proof.
  intros Hb.
  destruct (lookup_lt_is_Some_2 buf 0 ltac:(lia)) as [v Hv].
  change 4096%nat with (Z.to_nat 4096).
  rewrite (add_indirect_inner_zero NDEBUG buf 4096 v Hv) by (lia || reflexivity).
  eauto.
Qed.

Lemma mul_chains_4096 (buf : list Z) (x : Z) :
  length buf = 4096%nat ->
  exists r : Z, mul_chain buf 4096 x = Returned r /\ mul_chain4 buf 4096 x = Returned r.
Proof.
  intros Hb.
  destruct (mul_chains_agree buf 4096 x ltac:(lia) eq_refl ltac:(lia))
    as (r & _ & H1 & H4).
  eauto.
Qed.

End SinkLoop.

Example add_indirect_3 : add_indirect false (replicate 4096 9) 3 3 0 = Returned 0.
Proof. vm_compute. reflexivity. Qed.

Example mul_chain4_bench_1 : mul_chain4_bench (replicate 4096 3) 1 1 0 = Returned 0.
Proof. vm_compute. reflexivity. Qed.

(** C10: for every iteration count of at least 1, every content of the
    4096-element buffer and every argument, the gather kernels (plain and
    packed-offset), the multiply-chain benchmark kernels and the
    halves-summation benchmark kernel return 0. *)
Theorem sink_kernels_return_zero (NDEBUG : bool) (buf : list Z) (iters arg : Z) :
  length buf = 4096%nat ->
  1 <= iters < 2 ^ 64 ->
  returns (fun fuel => add_indirect NDEBUG buf fuel iters arg) 0 /\
  returns (fun fuel => add_indirect_shift buf fuel iters arg) 0 /\
  returns (fun fuel => mul_chain_bench buf fuel iters arg) 0 /\
  returns (fun fuel => mul_chain4_bench buf fuel iters arg) 0 /\
  returns (fun fuel => sum_halves_bench buf fuel iters arg) 0.
Proof.
  intros Hb Hi.
  destruct (add_indirect_inner_4096 NDEBUG buf Hb) as [r1 H1].
  destruct (add_indirect_shift_inner_4096 buf Hb) as [r2 H2].
  destruct (mul_chains_4096 buf (modify 123) Hb) as [r3 [H3 H4]].
  destruct (sum_halves_4096 buf Hb) as [r5 H5].
  unfold add_indirect, add_indirect_shift, add_indirect_f,
    mul_chain_bench, mul_chain4_bench, mul_by_bench_f, sum_halves_bench.
  cbv zeta. rewrite H1, H2, H3, H4, H5.
  repeat split; now apply (sink_loop_zero _ tt).
Qed.

Lemma sink_kernels_return_zero_witness :
  returns (fun fuel => add_indirect false (replicate 4096 77) fuel 5 0) 0 /\
  returns (fun fuel => add_indirect_shift (replicate 4096 77) fuel 5 0) 0 /\
  returns (fun fuel => mul_chain_bench (replicate 4096 77) fuel 5 0) 0 /\
  returns (fun fuel => mul_chain4_bench (replicate 4096 77) fuel 5 0) 0 /\
  returns (fun fuel => sum_halves_bench (replicate 4096 77) fuel 5 0) 0.
Proof.
  apply (sink_kernels_return_zero false (replicate 4096 77) 5 0);
    [reflexivity | lia].
Defined.

(** ** Linked lists *)

Section ListConstruction.

Lemma makeList_loop_step (fuel : nat) (h : heap) (size : Z) (all_nodes cur : nat) :
  1 < size ->
  makeList_loop (S fuel) h size all_nodes cur =
  makeList_loop fuel (alter (set_next (Some all_nodes)) cur h)
                (size - 1) (S all_nodes) all_nodes.
Proof.
  intros Hs. cbn [makeList_loop].
  destruct (Z.ltb_spec 0 (size - 1)); [reflexivity | lia].
Qed.

Lemma makeList_loop_stop (fuel : nat) (h : heap) (all_nodes cur : nat) :
  makeList_loop (S fuel) h 1 all_nodes cur = h.
Proof. reflexivity. Qed.

(** The links [makeList(NODE_COUNT)] sets in the nodes it has just
    appended to the heap. *)
Lemma makeList_loop_block (h : heap) :
  makeList_loop 5
    (h ++ replicate 5 {| value := 0; next := None |} ++ [{| value := 1; next := None |}])
    5 (length h) (length h + 5)
  = h ++ node_block (length h).
Proof.
  rewrite makeList_loop_step by lia. change (5 - 1) with 4.
  rewrite alter_app_r. cbn [alter list_alter replicate app].
  rewrite makeList_loop_step by lia. change (4 - 1) with 3.
  rewrite (alter_app_r_alt _ h _ (length h)) by lia.
  rewrite Nat.sub_diag. cbn [alter list_alter].
  rewrite makeList_loop_step by lia. change (3 - 1) with 2.
  rewrite (alter_app_r_alt _ h _ (S (length h))) by lia.
  replace (S (length h) - length h)%nat with 1%nat by lia. cbn [alter list_alter].
  rewrite makeList_loop_step by lia. change (2 - 1) with 1.
  rewrite (alter_app_r_alt _ h _ (S (S (length h)))) by lia.
  replace (S (S (length h)) - length h)%nat with 2%nat by lia. cbn [alter list_alter].
  rewrite makeList_loop_stop.
  reflexivity.
Qed.

Lemma makeList_NODE_COUNT (h : heap) :
  makeList NODE_COUNT h =
  Returned (h ++ node_block (length h),
            {| size := NODE_COUNT; first := Some (length h + 5)%nat |}).
Proof.
  unfold makeList, NODE_COUNT. cbn [Z.eqb Z.ltb Z.compare].
  change (Z.to_nat 5) with 5%nat.
  rewrite length_app, length_replicate, <- app_assoc.
  now rewrite makeList_loop_block.
Qed.

(** Growing the heap does not disturb a dereference that succeeds. *)
Lemma deref_app (h ext : heap) (p : node_ptr) (nd : list_node) :
  deref h p = Returned nd -> deref (h ++ ext) p = Returned nd.
Proof.
  unfold deref. destruct p as [a|]; [|discriminate].
  destruct (h !! a) as [nd'|] eqn:E; [|discriminate].
  intros [= ->]. now rewrite (lookup_app_l_Some _ _ _ _ E).
Qed.

Lemma deref_Returned (h : heap) (p : node_ptr) (B : Type)
    (k : list_node -> outcome B) (r : B) :
  (nd ← deref h p; k nd) = Returned r ->
  exists nd : list_node, deref h p = Returned nd /\ k nd = Returned r.
Proof.
  destruct (deref h p) as [nd| |]; cbn [mbind outcome_bind]; try discriminate.
  eauto.
Qed.

Lemma sum_counter_loop_app (h ext : heap) (fuel : nat) :
  forall (size : Z) (cur : node_ptr) (i sum r : Z),
    sum_counter_loop fuel h size cur i sum = Returned r ->
    sum_counter_loop fuel (h ++ ext) size cur i sum = Returned r.
Proof.
  induction fuel as [|fuel IH]; intros size cur i sum r; [discriminate|].
  cbn [sum_counter_loop]. destruct (i <? size); [|trivial].
  intros (nd & Hd & Hk)%deref_Returned.
  rewrite (deref_app _ ext _ _ Hd). cbn [mbind outcome_bind]. now apply IH.
Qed.

Lemma sum_sentinel_loop_app (h ext : heap) (fuel : nat) :
  forall (cur : node_ptr) (sum r : Z),
    sum_sentinel_loop fuel h cur sum = Returned r ->
    sum_sentinel_loop fuel (h ++ ext) cur sum = Returned r.
Proof.
  induction fuel as [|fuel IH]; intros cur sum r; [discriminate|].
  cbn [sum_sentinel_loop]. destruct cur as [a|]; [|trivial].
  intros (nd & Hd & Hk)%deref_Returned.
  rewrite (deref_app _ ext _ _ Hd). cbn [mbind outcome_bind]. now apply IH.
Qed.

(** The sums of the lists built so far survive further allocation. *)
Lemma sums_to_app (h ext : heap) (list : list_head) (r : Z) :
  sums_to h list r -> sums_to (h ++ ext) list r.
Proof.
  intros H fuel Hf. destruct (H fuel Hf) as [Hc Hs].
  unfold sum_counter, sum_sentinel in *.
  split; [now apply sum_counter_loop_app | now apply sum_sentinel_loop_app].
Qed.

Lemma deref_block (h ext : heap) (k : nat) (nd : list_node) :
  ext !! k = Some nd -> deref (h ++ ext) (Some (length h + k)%nat) = Returned nd.
Proof.
  intros H. unfold deref.
  rewrite lookup_app_r by lia.
  replace (length h + k - length h)%nat with k by lia. now rewrite H.
Qed.

(** Both traversals of a freshly made list visit its five nodes and
    return the value of the first. *)
Lemma sums_to_fresh (h : heap) :
  sums_to (h ++ node_block (length h))
          {| size := NODE_COUNT; first := Some (length h + 5)%nat |} 1.
Proof.
  intros fuel Hf. change (Z.to_nat NODE_COUNT) with 5%nat in Hf.
  do 6 (destruct fuel as [|fuel]; [lia|]).
  pose proof (deref_block h (node_block (length h)) 5 _ eq_refl) as H5.
  pose proof (deref_block h (node_block (length h)) 0 _ eq_refl) as H0.
  pose proof (deref_block h (node_block (length h)) 1 _ eq_refl) as H1.
  pose proof (deref_block h (node_block (length h)) 2 _ eq_refl) as H2.
  pose proof (deref_block h (node_block (length h)) 3 _ eq_refl) as H3.
  rewrite Nat.add_0_r in H0.
  replace (length h + 1)%nat with (S (length h)) in H1 by lia.
  replace (length h + 2)%nat with (S (S (length h))) in H2 by lia.
  replace (length h + 3)%nat with (S (S (S (length h)))) in H3 by lia.
  unfold sum_counter, sum_sentinel, NODE_COUNT. cbn [size first].
  split.
  - cbn [sum_counter_loop Z.ltb Z.compare Z.add Pos.compare Pos.compare_cont Pos.add
           Pos.succ].
    rewrite H5. cbn [mbind outcome_bind value next].
    rewrite H0. cbn [mbind outcome_bind value next].
    rewrite H1. cbn [mbind outcome_bind value next].
    rewrite H2. cbn [mbind outcome_bind value next].
    rewrite H3. cbn [mbind outcome_bind value next].
    reflexivity.
  - cbn [sum_sentinel_loop].
    rewrite H5. cbn [mbind outcome_bind value next].
    rewrite H0. cbn [mbind outcome_bind value next].
    rewrite H1. cbn [mbind outcome_bind value next].
    rewrite H2. cbn [mbind outcome_bind value next].
    rewrite H3. cbn [mbind outcome_bind value next].
    reflexivity.
Qed.

(** [makeLists] builds [LIST_COUNT] lists, each summing to 1 under
    both traversals. *)
Lemma makeLists_loop_sums (LIST_COUNT : Z) (n : nat) :
  forall (fuel : nat) (h : heap) (lists : list list_head) (i : Z),
    LIST_COUNT - i = Z.of_nat n -> (n < fuel)%nat ->
    Forall (fun head => sums_to h head 1) lists ->
    exists (h' : heap) (lists' : list list_head),
      makeLists_loop LIST_COUNT fuel h lists i = Returned (h', lists') /\
      Forall (fun head => sums_to h' head 1) lists' /\
      length lists' = (length lists + n)%nat.
Proof.
  induction n as [|n IH]; intros fuel h lists i Hn Hf Hl;
    (destruct fuel as [|fuel]; [lia|]); cbn [makeLists_loop].
  - destruct (Z.ltb_spec i LIST_COUNT); [lia|].
    exists h, lists. split; [reflexivity|]. split; [assumption|lia].
  - destruct (Z.ltb_spec i LIST_COUNT); [|lia].
    rewrite makeList_NODE_COUNT. cbn [mbind outcome_bind].
    destruct (IH fuel (h ++ node_block (length h))
                (lists ++ [{| size := NODE_COUNT; first := Some (length h + 5)%nat |}])
                (i + 1) ltac:(lia) ltac:(lia)) as (h' & lists' & Hm & Hs & Hlen).
    + apply Forall_app. split.
      * eapply Forall_impl; [exact Hl|]. intros head Hh. now apply sums_to_app.
      * constructor; [apply sums_to_fresh | constructor].
    + exists h', lists'. split; [exact Hm|]. split; [exact Hs|].
      rewrite Hlen, length_app. cbn [length]. lia.
Qed.

(** One pass over the lists adds 1 for each of them. *)
Lemma linkedlist_sum_lists_count (LIST_COUNT : Z) (SUM_IMPL : list_sum)
    (passes : nat) (h : heap) (lists : list list_head) (n : nat) :
  Forall (fun head => SUM_IMPL passes h head = Returned 1) lists ->
  Z.of_nat (length lists) = LIST_COUNT -> LIST_COUNT < 2 ^ 31 ->
  forall (fuel : nat) (list_index sum : Z),
    0 <= list_index -> list_index + Z.of_nat n = LIST_COUNT ->
    (n < fuel)%nat ->
    0 <= sum -> sum + Z.of_nat n < 2 ^ 31 ->
    linkedlist_sum_lists LIST_COUNT SUM_IMPL passes fuel h lists list_index sum
    = Returned (sum + Z.of_nat n).
Proof.
  intros Hs Hlen Hmax.
  induction n as [|n IH]; intros fuel idx sum Hi Hn Hf H0 Hsum;
    (destruct fuel as [|fuel]; [lia|]); cbn [linkedlist_sum_lists].
  - destruct (Z.ltb_spec idx LIST_COUNT); [lia|]. f_equal. lia.
  - destruct (Z.ltb_spec idx LIST_COUNT); [|lia].
    unfold at_index. destruct (Z.ltb_spec idx 0); [lia|].
    destruct (lookup_lt_is_Some_2 lists (Z.to_nat idx) ltac:(lia)) as [head Hh].
    rewrite Hh. cbn [mbind outcome_bind].
    rewrite Forall_lookup in Hs. rewrite (Hs _ _ Hh). cbn [mbind outcome_bind].
    rewrite (wrap64_small (idx + 1)) by lia.
    replace (to_int32 (sum + 1)) with (sum + 1)
      by (unfold to_int32; rewrite Z.mod_small; lia).
    rewrite IH by lia. f_equal. lia.
Qed.

(** A call with [iters = 1] makes one pass over the lists. *)
Lemma linkedlist_sum_once (LIST_COUNT : Z) (SUM_IMPL : list_sum) (fuel : nat) :
  0 <= LIST_COUNT < 2 ^ 31 ->
  (forall (h : heap) (head : list_head),
      sums_to h head 1 -> SUM_IMPL fuel h head = Returned 1) ->
  (Z.to_nat LIST_COUNT < fuel)%nat -> (1 < fuel)%nat ->
  linkedlist_sum LIST_COUNT SUM_IMPL fuel 1 = Returned LIST_COUNT.
Proof.
  intros HL HS Hf H1. unfold linkedlist_sum, listOfLists, makeLists.
  destruct (makeLists_loop_sums LIST_COUNT (Z.to_nat LIST_COUNT)
              (S (Z.to_nat LIST_COUNT)) [] [] 0 ltac:(lia) ltac:(lia)
              ltac:(constructor)) as (h & lists & -> & Hs & Hlen).
  cbn [mbind outcome_bind length Nat.add] in *.
  do 2 (destruct fuel as [|fuel]; [lia|]).
  cbn [linkedlist_sum_loop Z.ltb Z.compare].
  rewrite (linkedlist_sum_lists_count LIST_COUNT SUM_IMPL (S (S fuel)) h lists
             (Z.to_nat LIST_COUNT)); try lia.
  - cbn [mbind outcome_bind]. f_equal. lia.
  - eapply Forall_impl; [exact Hs|]. intros head Hh. now apply HS.
Qed.

End ListConstruction.

Example makeList_5 :
  makeList NODE_COUNT [] =
  Returned (node_block 0, {| size := 5; first := Some 5%nat |}).
Proof. reflexivity. Qed.

Example linkedlist_counter_3 : linkedlist_counter 3 7 1 = Returned 3.
Proof. reflexivity. Qed.

Example linkedlist_sentinel_3 : linkedlist_sentinel 3 7 1 = Returned 3.
Proof. reflexivity. Qed.

Example linkedlist_sentinel_twice : linkedlist_sentinel 3 7 2 = Returned 6.
Proof. reflexivity. Qed.

(** C4: with [LIST_COUNT] lists of [NODE_COUNT] nodes each, built by
    [makeList] with one node of value 1 and the other nodes zero, the
    counter-terminated and the sentinel-terminated traversal kernel called
    with iteration count 1 both return [LIST_COUNT * 1], the number of
    lists times the value of the distinct node. *)
Theorem linkedlist_counter_sentinel_once (LIST_COUNT : Z) :
  0 <= LIST_COUNT < 2 ^ 31 ->
  returns (fun fuel => linkedlist_counter LIST_COUNT fuel 1) (LIST_COUNT * 1) /\
  returns (fun fuel => linkedlist_sentinel LIST_COUNT fuel 1) (LIST_COUNT * 1).
Proof.
  intros HL. rewrite Z.mul_1_r.
  split; exists (S (Z.to_nat (Z.max LIST_COUNT NODE_COUNT))); intros fuel Hf;
    unfold NODE_COUNT in Hf;
    (apply linkedlist_sum_once; [assumption | | lia | lia]);
    intros h head Hh; apply Hh; unfold NODE_COUNT; lia.
Qed.

Lemma linkedlist_counter_sentinel_once_witness :
  returns (fun fuel => linkedlist_counter 4000 fuel 1) (4000 * 1) /\
  returns (fun fuel => linkedlist_sentinel 4000 fuel 1) (4000 * 1).
Proof.
  apply (linkedlist_counter_sentinel_once 4000). lia.
Defined.

(* ================================================================== *)
(** * Further properties of the kernels *)

(** ** Sums and congruences *)

#[global] Instance cong32_add : Proper (cong32 ==> cong32 ==> cong32) Z.add.
Proof.
  intros a b Hab c d Hcd. unfold cong32, wrap32 in *.
  rewrite (Z.add_mod a c), (Z.add_mod b d), Hab, Hcd by lia. reflexivity.
Qed.

Section Sums.

Lemma Zsum_app (l k : list Z) : Zsum (l ++ k) = Zsum l + Zsum k.
Proof. unfold Zsum. induction l as [|x l IH]; cbn [app foldr]; lia. Qed.

Lemma Zprod_app (l k : list Z) : Zprod (l ++ k) = Zprod l * Zprod k.
Proof. unfold Zprod. induction l as [|x l IH]; cbn [app foldr]; lia. Qed.

Lemma Zprod_zero (l : list Z) : 0 ∈ l -> Zprod l = 0.
Proof.
  unfold Zprod. induction l as [|x l IH]; intros H.
  - now apply not_elem_of_nil in H.
  - cbn [foldr]. apply elem_of_cons in H as [<-|H]; [lia|]. rewrite IH by assumption. lia.
Qed.

(** A sum of [length l] terms, each between 0 and [B]. *)
Lemma Zsum_bound (B : Z) (l : list Z) :
  Forall (fun x => 0 <= x <= B) l -> 0 <= Zsum l <= Z.of_nat (length l) * B.
Proof.
  unfold Zsum. induction 1 as [|x l Hx Hl IH]; cbn [foldr length]; [lia|].
  rewrite Nat2Z.inj_succ. nia.
Qed.

Lemma read_cases (a : list Z) (i : Z) :
  read a i = Fault \/
  exists x : Z, read a i = Returned x /\ 0 <= i /\ a !! Z.to_nat i = Some x.
Proof.
  unfold read. destruct (Z.ltb_spec i 0); [now left|].
  destruct (a !! Z.to_nat i) as [x|]; [right; eauto | now left].
Qed.

Lemma read_outside (a : list Z) (i : Z) :
  Z.of_nat (length a) <= i -> read a i = Fault.
Proof.
  intros Hi. unfold read. destruct (Z.ltb_spec i 0); [reflexivity|].
  now rewrite lookup_ge_None_2 by lia.
Qed.

Lemma read_elem (data : list Z) (o : Z) :
  0 <= o < Z.of_nat (length data) -> read data o = Returned (elem data o).
Proof.
  intros Ho. unfold read, elem. destruct (Z.ltb_spec o 0); [lia|].
  destruct (lookup_lt_is_Some_2 data (Z.to_nat o) ltac:(lia)) as [x ->]. reflexivity.
Qed.

End Sums.

(** ** Indirect summation, any offsets *)

Section Gather.

(** Each pass adds the two elements the offsets [i - 1] and [i - 2]
    select; the passes below [i] add the rest. *)
Lemma add_indirect_loop_sum (data offsets : list Z) (n : nat) :
  Forall (fun o => 0 <= o < Z.of_nat (length data)) offsets ->
  forall (fuel : nat) (i sum1 sum2 : Z),
    i = 2 * (Z.of_nat n + 1) -> i <= Z.of_nat (length offsets) -> i < 2 ^ 64 ->
    (n < fuel)%nat ->
    exists s1 s2 : Z,
      add_indirect_loop fuel data offsets i sum1 sum2 = Returned (s1, s2) /\
      cong32 (s1 + s2)
             (sum1 + sum2 + Zsum (map (elem data) (take (Z.to_nat i) offsets))).
Proof.
  intros Hin.
  induction n as [|n IH]; intros fuel i sum1 sum2 Hi HL Hr Hf;
    (destruct fuel as [|fuel]; [lia|]); cbn [add_indirect_loop];
    rewrite (wrap64_small (i - 1)), (wrap64_small (i - 2)) by lia;
    destruct (lookup_lt_is_Some_2 offsets (Z.to_nat (i - 1)) ltac:(lia)) as [o1 Ho1];
    destruct (lookup_lt_is_Some_2 offsets (Z.to_nat (i - 2)) ltac:(lia)) as [o2 Ho2];
    pose proof (Forall_lookup_1 _ _ _ _ Hin Ho1) as Hb1;
    pose proof (Forall_lookup_1 _ _ _ _ Hin Ho2) as Hb2;
    rewrite <- (Z2Nat.id (i - 1)), (read_lookup _ _ _ Ho1) by lia;
    cbn [mbind outcome_bind]; rewrite (read_elem data o1 Hb1);
    cbn [mbind outcome_bind];
    rewrite <- (Z2Nat.id (i - 2)), (read_lookup _ _ _ Ho2) by lia;
    cbn [mbind outcome_bind]; rewrite (read_elem data o2 Hb2);
    cbn [mbind outcome_bind]; rewrite !Z2Nat.id by lia;
    replace (Z.to_nat i) with (S (S (Z.to_nat (i - 2)))) by lia;
    replace (Z.to_nat (i - 1)) with (S (Z.to_nat (i - 2))) in Ho1 by lia;
    rewrite (take_S_r _ _ _ Ho1), (take_S_r _ _ _ Ho2), !map_app, !Zsum_app;
    cbn [map Zsum foldr];
    destruct (Z.eqb_spec (i - 2) 0) as [E|E]; try lia.
  - eexists _, _. split; [reflexivity|].
    replace (Z.to_nat (i - 2)) with 0%nat by lia. rewrite take_0. cbn [map foldr].
    rewrite !wrap32_cong. unfold cong32, Zsum. cbn [foldr]. f_equal. lia.
  - destruct (IH fuel (i - 2) (wrap32 (sum1 + elem data o1))
                (wrap32 (sum2 + elem data o2)) ltac:(lia) ltac:(lia) ltac:(lia)
                ltac:(lia)) as (s1 & s2 & -> & Hc).
    eexists _, _. split; [reflexivity|].
    rewrite Hc, !wrap32_cong. unfold cong32, Zsum. f_equal. lia.
Qed.

(** Unpacking the two offsets of a little-endian 64-bit load. *)
Lemma twooffsets_split (low high : Z) :
  0 <= low < 2 ^ 32 -> 0 <= high ->
  Z.shiftr (Z.lor low (Z.shiftl high 32)) 32 = high /\
  Z.land (Z.lor low (Z.shiftl high 32)) 0xFFFFFFFF = low.
Proof.
  intros Hl Hh. split.
  - rewrite Z.shiftr_lor, Z.shiftr_shiftl_l, Z.sub_diag, Z.shiftl_0_r by lia.
    rewrite Z.shiftr_div_pow2, Z.div_small by lia. apply Z.lor_0_l.
  - change 0xFFFFFFFF with (Z.ones 32).
    rewrite Z.land_ones, Z.shiftl_mul_pow2 by lia.
    rewrite <- Z.add_nocarry_lor.
    + rewrite Z_mod_plus_full. now apply Z.mod_small.
    + apply Z.bits_inj'. intros k Hk.
      rewrite Z.land_spec, Z.bits_0.
      destruct (Z.ltb_spec k 32).
      * rewrite Z.mul_pow2_bits_low by lia. apply andb_false_r.
      * rewrite (Z.bits_above_log2 low k); [reflexivity | lia |].
        destruct (Z.eq_dec low 0) as [->|]; [cbn; lia|].
        apply Z.log2_lt_pow2; [lia|].
        apply Z.lt_le_trans with (2 ^ 32); [lia|].
        apply Z.pow_le_mono_r; lia.
Qed.

(** The packed-offset loop and the plain loop do the same, pass by pass,
    faults included. *)
Lemma add_indirect_shift_loop_plain (data offsets : list Z) (fuel : nat) :
  Forall (fun o => 0 <= o < 2 ^ 32) offsets ->
  forall (i sum1 sum2 : Z),
    i mod 2 = 0 -> 2 <= i < 2 ^ 64 ->
    add_indirect_shift_loop fuel data offsets i sum1 sum2 =
    add_indirect_loop fuel data offsets i sum1 sum2.
Proof.
  intros Hoff.
  induction fuel as [|fuel IH]; intros i sum1 sum2 He Hi; [reflexivity|].
  cbn [add_indirect_shift_loop add_indirect_loop].
  rewrite (wrap64_small (i - 1)), (wrap64_small (i - 2)) by lia.
  replace (i - 2 + 1) with (i - 1) by lia.
  destruct (read_cases offsets (i - 1)) as [Hhi | (high & Hhi & _ & Lhi)];
    destruct (read_cases offsets (i - 2)) as [Hlo | (low & Hlo & _ & Llo)];
    rewrite Hhi, Hlo; cbn [mbind outcome_bind]; try reflexivity.
  - destruct (read_cases data high) as [-> | (x1 & -> & _)]; reflexivity.
  - pose proof (Forall_lookup_1 _ _ _ _ Hoff Lhi) as Bhi.
    pose proof (Forall_lookup_1 _ _ _ _ Hoff Llo) as Blo.
    cbv beta in Bhi, Blo.
    destruct (twooffsets_split low high Blo ltac:(lia)) as [-> ->].
    destruct (read data high) as [x1| |]; cbn [mbind outcome_bind]; try reflexivity.
    destruct (read data low) as [x2| |]; cbn [mbind outcome_bind]; try reflexivity.
    destruct (Z.eqb_spec (i - 2) 0); [reflexivity|].
    apply IH.
    + replace (i - 2) with (i + (-1) * 2) by lia. now rewrite Z_mod_plus_full.
    + apply Z.mod_divide in He; [|lia]. destruct He as [q Hq]. lia.
Qed.

End Gather.

Example add_indirect_inner_gather :
  add_indirect_inner false [10; 20; 30; 40] [3; 0; 0; 2] 4 = Returned 90.
Proof. reflexivity. Qed.

Example add_indirect_shift_inner_gather :
  add_indirect_shift_inner [10; 20; 30; 40] [3; 0; 0; 2] 4 = Returned 90.
Proof. reflexivity. Qed.

(** X1: the gather function over an even number [len >= 2] of offsets
    that all point into the data array returns the sum of the elements
    they select, reduced modulo [2^32]. *)
Theorem add_indirect_inner_sum (NDEBUG : bool) (data offsets : list Z) (len : Z) :
  2 <= len < 2 ^ 64 -> len mod 2 = 0 ->
  len <= Z.of_nat (length offsets) ->
  Forall (fun o => 0 <= o < Z.of_nat (length data)) offsets ->
  add_indirect_inner NDEBUG data offsets len =
  Returned (Zsum (map (elem data) (take (Z.to_nat len) offsets)) mod 2 ^ 32).
Proof.
  intros Hl He Ho Hin. unfold add_indirect_inner, assert.
  destruct (Z.leb_spec 2 len); [|lia]. rewrite He. cbn [Z.eqb andb].
  rewrite orb_true_r. cbn [mbind outcome_bind].
  apply Z.mod_divide in He; [|lia]. destruct He as [q Hq].
  destruct (add_indirect_loop_sum data offsets (Z.to_nat (q - 1)) Hin
              (Z.to_nat len) len 0 0 ltac:(lia) Ho ltac:(lia) ltac:(lia))
    as (s1 & s2 & -> & Hc).
  cbn [mbind outcome_bind mret outcome_ret]. f_equal. exact Hc.
Qed.

Lemma add_indirect_inner_sum_witness :
  add_indirect_inner false [10; 20; 30; 40] [3; 0; 0; 2] 4 =
  Returned (Zsum (map (elem [10; 20; 30; 40]) (take (Z.to_nat 4) [3; 0; 0; 2])) mod 2 ^ 32).
Proof.
  apply (add_indirect_inner_sum false [10; 20; 30; 40] [3; 0; 0; 2] 4);
    [lia | reflexivity | cbn; lia | repeat constructor; cbn; lia].
Defined.

(** X2: for an even [len >= 2] and 32-bit offsets, the packed-offset
    gather function returns what the plain one returns (with its assertion
    passed), whatever the data and the offsets: the same sum, or a fault on
    both sides when an access leaves an array. *)
Theorem add_indirect_shift_inner_plain (NDEBUG : bool) (data offsets : list Z) (len : Z) :
  2 <= len < 2 ^ 64 -> len mod 2 = 0 ->
  Forall (fun o => 0 <= o < 2 ^ 32) offsets ->
  add_indirect_shift_inner data offsets len =
  add_indirect_inner NDEBUG data offsets len.
Proof.
  intros Hl He Hoff. unfold add_indirect_shift_inner, add_indirect_inner, assert.
  destruct (Z.leb_spec 2 len); [|lia]. rewrite He. cbn [Z.eqb andb].
  rewrite orb_true_r. cbn [mbind outcome_bind].
  now rewrite add_indirect_shift_loop_plain.
Qed.

Lemma add_indirect_shift_inner_plain_witness :
  add_indirect_shift_inner [10; 20; 30; 40] [3; 0; 7; 2] 4 =
  add_indirect_inner false [10; 20; 30; 40] [3; 0; 7; 2] 4.
Proof.
  apply (add_indirect_shift_inner_plain false [10; 20; 30; 40] [3; 0; 7; 2] 4);
    [lia | reflexivity | repeat constructor; lia].
Defined.

(** ** Multiply chains, any data *)

Section MulChainProduct.

Lemma read_at (data : list Z) (i : Z) (x : Z) :
  0 <= i -> data !! Z.to_nat i = Some x -> read data i = Returned x.
Proof.
  intros Hi Hx. rewrite <- (Z2Nat.id i) by lia. now apply read_lookup.
Qed.

(** The single accumulator holds the product of what it has read. *)
Lemma mul_chain_loop_prod (data : list Z) (len : Z) (n : nat) :
  len <= Z.of_nat (length data) -> len < 2 ^ 64 ->
  forall (fuel : nat) (i p : Z),
    0 <= i -> i + Z.of_nat n = len -> (n < fuel)%nat ->
    0 <= p < 2 ^ 32 ->
    mul_chain_loop fuel data len i p =
    Returned (wrap32 (p * Zprod (take n (drop (Z.to_nat i) data)))).
Proof.
  intros Hlen Hmax.
  induction n as [|n IH]; intros fuel i p Hi Hn Hf Hp;
    (destruct fuel as [|fuel]; [lia|]); cbn [mul_chain_loop].
  - destruct (Z.ltb_spec i len); [lia|].
    rewrite take_0. unfold Zprod. cbn [foldr].
    rewrite Z.mul_1_r. now rewrite wrap32_small.
  - destruct (Z.ltb_spec i len); [|lia].
    destruct (lookup_lt_is_Some_2 data (Z.to_nat i) ltac:(lia)) as [x Hx].
    rewrite (read_at data i x Hi Hx). cbn [mbind outcome_bind].
    rewrite (wrap64_small (i + 1)) by lia.
    rewrite (IH fuel (i + 1)) by (lia || apply wrap32_range).
    rewrite (drop_S _ _ _ Hx).
    replace (Z.to_nat (i + 1)) with (S (Z.to_nat i)) by lia.
    cbn [take]. unfold Zprod. cbn [foldr]. f_equal.
    change (cong32 (wrap32 (p * x) * foldr Z.mul 1 (take n (drop (S (Z.to_nat i)) data)))
                   (p * (x * foldr Z.mul 1 (take n (drop (S (Z.to_nat i)) data))))).
    rewrite wrap32_cong. unfold cong32. f_equal. ring.
Qed.

Lemma mul_chain_prod (data : list Z) (len m : Z) :
  0 <= len < 2 ^ 64 -> len <= Z.of_nat (length data) ->
  mul_chain data len m = Returned (wrap32 (Zprod (take (Z.to_nat len) data))).
Proof.
  intros Hl Hd. unfold mul_chain.
  rewrite (mul_chain_loop_prod data len (Z.to_nat len) Hd ltac:(lia)) by lia.
  cbn [mbind outcome_bind mret outcome_ret Z.to_nat drop].
  now rewrite Z.mul_1_l.
Qed.

(** The four-accumulator loop on an array that ends inside a group of
    four: the last pass reads past the end. *)
Lemma mul_chain4_loop_tail (data : list Z) (len : Z) (n : nat) :
  len = Z.of_nat (length data) -> len + 3 < 2 ^ 64 ->
  forall (fuel : nat) (i p1 p2 p3 p4 : Z),
    0 <= i -> i + 4 * Z.of_nat n < len <= i + 4 * Z.of_nat n + 3 ->
    (n < fuel)%nat ->
    mul_chain4_loop fuel data len i p1 p2 p3 p4 = Fault.
Proof.
  intros Hlen Hmax.
  induction n as [|n IH]; intros fuel i p1 p2 p3 p4 Hi Hn Hf;
    (destruct fuel as [|fuel]; [lia|]); cbn [mul_chain4_loop];
    (destruct (Z.ltb_spec i len); [|lia]);
    rewrite (wrap64_small (i + 0)), (wrap64_small (i + 1)),
      (wrap64_small (i + 2)), (wrap64_small (i + 3)) by lia.
  - rewrite (read_outside data (i + 3)) by lia.
    destruct (read_cases data (i + 0)) as [-> | (x0 & -> & _)];
      cbn [mbind outcome_bind]; [reflexivity|].
    destruct (read_cases data (i + 1)) as [-> | (x1 & -> & _)];
      cbn [mbind outcome_bind]; [reflexivity|].
    destruct (read_cases data (i + 2)) as [-> | (x2 & -> & _)];
      cbn [mbind outcome_bind]; reflexivity.
  - destruct (read_inside data (i + 0) ltac:(lia)) as [x0 ->].
    destruct (read_inside data (i + 1) ltac:(lia)) as [x1 ->].
    destruct (read_inside data (i + 2) ltac:(lia)) as [x2 ->].
    destruct (read_inside data (i + 3) ltac:(lia)) as [x3 ->].
    cbn [mbind outcome_bind].
    rewrite (wrap64_small (i + 4)) by lia.
    apply IH; lia.
Qed.

End MulChainProduct.

(** X3: on a length inside the array the single-accumulator chain
    returns the product of the first [len] elements reduced modulo [2^32],
    whatever [m] is; the four-accumulator chain returns the same for a
    length that is a multiple of four; so both return 0 when one of those
    elements is 0. *)
Theorem mul_chain_is_product (data : list Z) (len m : Z) :
  0 <= len < 2 ^ 64 -> len <= Z.of_nat (length data) ->
  mul_chain data len m = Returned (Zprod (take (Z.to_nat len) data) mod 2 ^ 32) /\
  (len mod 4 = 0 ->
   mul_chain4 data len m = Returned (Zprod (take (Z.to_nat len) data) mod 2 ^ 32)) /\
  (0 ∈ take (Z.to_nat len) data -> mul_chain data len m = Returned 0).
Proof.
  intros Hl Hd. pose proof (mul_chain_prod data len m Hl Hd) as H1.
  unfold wrap32 in H1. split; [exact H1|]. split.
  - intros H4.
    destruct (mul_chains_agree data len m Hl H4 Hd) as (r & _ & Hr1 & Hr4).
    rewrite Hr4. congruence.
  - intros Hz. rewrite H1, (Zprod_zero _ Hz). reflexivity.
Qed.

Lemma mul_chain_is_product_witness :
  mul_chain [65536; 3; 65536; 5] 4 9 =
    Returned (Zprod (take (Z.to_nat 4) [65536; 3; 65536; 5]) mod 2 ^ 32) /\
  mul_chain4 [65536; 3; 65536; 5] 4 9 =
    Returned (Zprod (take (Z.to_nat 4) [65536; 3; 65536; 5]) mod 2 ^ 32) /\
  mul_chain [7; 0; 5] 2 9 = Returned 0.
Proof.
  split; [|split].
  - refine (proj1 (mul_chain_is_product [65536; 3; 65536; 5] 4 9 _ _)); cbn; lia.
  - refine (proj1 (proj2 (mul_chain_is_product [65536; 3; 65536; 5] 4 9 _ _)) _);
      [lia | cbn; lia | reflexivity].
  - refine (proj2 (proj2 (mul_chain_is_product [7; 0; 5] 2 9 _ _)) _);
      [lia | cbn; lia | cbn; apply list_elem_of_further, list_elem_of_here].
Defined.

(** X4: called on an array of exactly [len] elements with [len] not a
    multiple of four, the four-accumulator chain reads past the end of the
    array: its last pass faults. *)
Theorem mul_chain4_exact_length_faults (data : list Z) (len m : Z) :
  len = Z.of_nat (length data) -> len mod 4 <> 0 -> len + 3 < 2 ^ 64 ->
  mul_chain4 data len m = Fault.
Proof.
  intros Hlen H4 Hmax. unfold mul_chain4.
  pose proof (Z.div_mod len 4 ltac:(lia)) as Hd.
  pose proof (Z.mod_pos_bound len 4 ltac:(lia)) as Hb.
  assert (Hq : 0 <= len / 4) by (apply Z.div_pos; lia).
  rewrite (mul_chain4_loop_tail data len (Z.to_nat (len / 4)) Hlen Hmax);
    [reflexivity | lia | rewrite Z2Nat.id by exact Hq; lia | lia].
Qed.

Lemma mul_chain4_exact_length_faults_witness :
  mul_chain4 [2; 3; 5; 7; 11; 13] 6 1 = Fault.
Proof.
  apply (mul_chain4_exact_length_faults [2; 3; 5; 7; 11; 13] 6 1);
    [reflexivity | discriminate | lia].
Defined.

(** ** Halves summation, any data *)

Section SumHalves.

Lemma halves_recombine (e : Z) :
  Z.shiftr e 16 * 2 ^ 16 + Z.land e 0xFFFF = e.
Proof.
  change 0xFFFF with (Z.ones 16).
  rewrite Z.shiftr_div_pow2, Z.land_ones by lia.
  pose proof (Z.div_mod e (2 ^ 16) ltac:(lia)). lia.
Qed.

Lemma halves_range (e : Z) :
  0 <= e < 2 ^ 32 ->
  0 <= Z.shiftr e 16 <= 2 ^ 16 - 1 /\ 0 <= Z.land e 0xFFFF <= 2 ^ 16 - 1.
Proof.
  intros He. change 0xFFFF with (Z.ones 16).
  rewrite Z.shiftr_div_pow2, Z.land_ones by lia.
  pose proof (Z.mod_pos_bound e (2 ^ 16) ltac:(lia)).
  assert (0 <= e / 2 ^ 16) by (apply Z.div_pos; lia).
  assert (e / 2 ^ 16 < 2 ^ 16) by (apply Z.div_lt_upper_bound; lia).
  lia.
Qed.

(** The two accumulators hold the wrapped sums of the high and of the
    low halves of what has been read. *)
Lemma sum_halves_loop_sums (data : list Z) (len : Z) (n : nat) :
  len <= Z.of_nat (length data) -> len < 2 ^ 64 ->
  forall (fuel : nat) (i t b : Z),
    0 <= i -> i + 2 * Z.of_nat n = len -> (n < fuel)%nat ->
    0 <= t < 2 ^ 32 -> 0 <= b < 2 ^ 32 ->
    sum_halves_loop fuel data len i t b =
    Returned
      {| top := wrap32 (t + Zsum (map (fun e => Z.shiftr e 16)
                                      (take (2 * n) (drop (Z.to_nat i) data))));
         bottom := wrap32 (b + Zsum (map (fun e => Z.land e 0xFFFF)
                                         (take (2 * n) (drop (Z.to_nat i) data)))) |}.
Proof.
  intros Hlen Hmax.
  induction n as [|n IH]; intros fuel i t b Hi Hn Hf Ht Hb;
    (destruct fuel as [|fuel]; [lia|]); cbn [sum_halves_loop].
  - destruct (Z.ltb_spec i len); [lia|].
    cbn [Nat.mul]. rewrite take_0. unfold Zsum. cbn [map foldr].
    now rewrite !Z.add_0_r, !wrap32_small.
  - destruct (Z.ltb_spec i len); [|lia].
    destruct (lookup_lt_is_Some_2 data (Z.to_nat i) ltac:(lia)) as [x Hx].
    destruct (lookup_lt_is_Some_2 data (S (Z.to_nat i)) ltac:(lia)) as [y Hy].
    rewrite (read_at data i x Hi Hx). cbn [mbind outcome_bind].
    rewrite (wrap64_small (i + 1)), (wrap64_small (i + 2)) by lia.
    rewrite (read_at data (i + 1) y) by (lia || (replace (Z.to_nat (i + 1)) with (S (Z.to_nat i)) by lia; exact Hy)).
    cbn [mbind outcome_bind].
    rewrite (IH fuel (i + 2)) by (lia || apply wrap32_range).
    rewrite (drop_S _ _ _ Hx), (drop_S _ _ _ Hy).
    replace (Z.to_nat (i + 2)) with (S (S (Z.to_nat i))) by lia.
    replace (2 * S n)%nat with (S (S (2 * n))) by lia.
    cbn [take map]. unfold Zsum. cbn [foldr].
    f_equal. f_equal;
      (match goal with |- wrap32 ?a = wrap32 ?b => change (cong32 a b) end;
       rewrite !wrap32_cong; unfold cong32; f_equal; lia).
Qed.

Lemma halves_sums (l : list Z) :
  Zsum (map (fun e => Z.shiftr e 16) l) * 2 ^ 16 + Zsum (map (fun e => Z.land e 0xFFFF) l)
  = Zsum l.
Proof.
  unfold Zsum. induction l as [|e l IH]; cbn [map foldr]; [reflexivity|].
  pose proof (halves_recombine e). lia.
Qed.

Lemma halves_sums_bound (l : list Z) :
  Forall (fun e => 0 <= e < 2 ^ 32) l ->
  0 <= Zsum (map (fun e => Z.shiftr e 16) l) <= Z.of_nat (length l) * (2 ^ 16 - 1) /\
  0 <= Zsum (map (fun e => Z.land e 0xFFFF) l) <= Z.of_nat (length l) * (2 ^ 16 - 1).
Proof.
  intros Hl.
  pose proof (Zsum_bound (2 ^ 16 - 1) (map (fun e => Z.shiftr e 16) l)) as Hh.
  pose proof (Zsum_bound (2 ^ 16 - 1) (map (fun e => Z.land e 0xFFFF) l)) as Hw.
  rewrite length_map in Hh, Hw.
  split; [apply Hh | apply Hw]; apply List.Forall_map;
    (eapply Forall_impl; [exact Hl|]); intros e He; cbv beta; apply halves_range; exact He.
Qed.

(** An odd length on an array of exactly that many elements: the last
    pass reads one element past the end. *)
Lemma sum_halves_loop_tail (data : list Z) (len : Z) (n : nat) :
  len = Z.of_nat (length data) -> len < 2 ^ 64 ->
  forall (fuel : nat) (i t b : Z),
    0 <= i -> i + 2 * Z.of_nat n + 1 = len -> (n < fuel)%nat ->
    sum_halves_loop fuel data len i t b = Fault.
Proof.
  intros Hlen Hmax.
  induction n as [|n IH]; intros fuel i t b Hi Hn Hf;
    (destruct fuel as [|fuel]; [lia|]); cbn [sum_halves_loop];
    (destruct (Z.ltb_spec i len); [|lia]);
    rewrite (wrap64_small (i + 1)) by lia.
  - rewrite (read_outside data (i + 1)) by lia.
    destruct (read_cases data i) as [-> | (x & -> & _)]; reflexivity.
  - destruct (read_inside data i ltac:(lia)) as [x ->].
    destruct (read_inside data (i + 1) ltac:(lia)) as [y ->].
    cbn [mbind outcome_bind]. rewrite (wrap64_small (i + 2)) by lia.
    apply IH; lia.
Qed.

End SumHalves.

Example sum_halves_4 :
  sum_halves [0x00010002; 0xFFFF0003; 0x00000004; 0x80000000] 4 =
  Returned {| top := 0x18000; bottom := 9 |}.
Proof. reflexivity. Qed.

(** X5: on an even length of at most 65536 elements inside an array of
    32-bit values, the halves summation returns the exact sum of the high
    halves and the exact sum of the low halves (neither accumulator wraps),
    and the two recombine to the sum of the elements. *)
Theorem sum_halves_exact (data : list Z) (len : Z) :
  0 <= len <= 65536 -> len mod 2 = 0 ->
  len <= Z.of_nat (length data) ->
  Forall (fun e => 0 <= e < 2 ^ 32) data ->
  exists r : top_bottom,
    sum_halves data len = Returned r /\
    top r = Zsum (map (fun e => Z.shiftr e 16) (take (Z.to_nat len) data)) /\
    bottom r = Zsum (map (fun e => Z.land e 0xFFFF) (take (Z.to_nat len) data)) /\
    top r * 2 ^ 16 + bottom r = Zsum (take (Z.to_nat len) data).
Proof.
  intros Hl He Hd Hdata.
  apply Z.mod_divide in He; [|lia]. destruct He as [q Hq].
  unfold sum_halves.
  rewrite (sum_halves_loop_sums data len (Z.to_nat q) Hd ltac:(lia)) by lia.
  replace (2 * Z.to_nat q)%nat with (Z.to_nat len) by lia.
  change (drop (Z.to_nat 0) data) with data. rewrite !Z.add_0_l.
  destruct (halves_sums_bound (take (Z.to_nat len) data) (Forall_take _ _ _ Hdata))
    as [Hh Hw].
  rewrite length_take, Nat.min_l in Hh, Hw by lia.
  eexists. split; [reflexivity|]. cbn [top bottom].
  rewrite !wrap32_small by lia.
  split; [reflexivity|]. split; [reflexivity|]. apply halves_sums.
Qed.

Lemma sum_halves_exact_witness :
  exists r : top_bottom,
    sum_halves [0x00010002; 0xFFFF0003] 2 = Returned r /\
    top r = Zsum (map (fun e => Z.shiftr e 16) (take (Z.to_nat 2) [0x00010002; 0xFFFF0003])) /\
    bottom r = Zsum (map (fun e => Z.land e 0xFFFF) (take (Z.to_nat 2) [0x00010002; 0xFFFF0003])) /\
    top r * 2 ^ 16 + bottom r = Zsum (take (Z.to_nat 2) [0x00010002; 0xFFFF0003]).
Proof.
  apply (sum_halves_exact [0x00010002; 0xFFFF0003] 2);
    [lia | reflexivity | cbn; lia | repeat constructor; lia].
Defined.

(** X6: called with an odd length on an array of exactly that many
    elements, the halves summation reads [data[len]], one element past the
    end: it faults. *)
Theorem sum_halves_odd_length_faults (data : list Z) (len : Z) :
  len = Z.of_nat (length data) -> len mod 2 = 1 -> len < 2 ^ 64 ->
  sum_halves data len = Fault.
Proof.
  intros Hlen Ho Hmax. unfold sum_halves.
  pose proof (Z.div_mod len 2 ltac:(lia)) as Hd.
  assert (Hq : 0 <= len / 2) by (apply Z.div_pos; lia).
  apply (sum_halves_loop_tail data len (Z.to_nat (len / 2)) Hlen Hmax); lia.
Qed.

Lemma sum_halves_odd_length_faults_witness :
  sum_halves [1; 2; 3] 3 = Fault.
Proof.
  apply (sum_halves_odd_length_faults [1; 2; 3] 3); [reflexivity | reflexivity | lia].
Defined.

(** ** Table lookup, any length *)

Section Crc8Bounds.

Lemma crc8_loop_past_end (data : list Z) (n : nat) :
  Forall (fun x => 0 <= x < 2 ^ 8) data ->
  forall pos crc : Z,
    0 <= pos <= Z.of_nat (length data) -> 0 <= crc < 2 ^ 8 ->
    Z.of_nat (length data) < pos + Z.of_nat n ->
    crc8_loop n data pos crc = Fault.
Proof.
  intros Hdata. induction n as [|n IH]; intros pos crc Hp Hc Hn; [lia|].
  cbn [crc8_loop].
  destruct (Z.eq_dec pos (Z.of_nat (length data))) as [E|E].
  - now rewrite read_outside by lia.
  - destruct (read_in_bounds 8 (length data) data pos (conj eq_refl Hdata) ltac:(lia))
      as [byte [-> Hbyte]].
    cbn [mbind outcome_bind].
    rewrite read_crc8_table by now apply lxor_byte.
    cbn [mbind outcome_bind]. apply IH; lia.
Qed.

End Crc8Bounds.

(** X7: [crc8] reads exactly [len] bytes.  With the zero table it
    returns the masked initial value for [len = 0] and 0 for any other
    length inside the buffer, and it faults when [len] exceeds the
    buffer. *)
Theorem crc8_reads_len (crc : Z) (data : list Z) (len : Z) :
  Forall (fun x => 0 <= x < 2 ^ 8) data -> 0 <= len ->
  (len <= Z.of_nat (length data) ->
   crc8 crc data len = Returned (if len =? 0 then Z.land crc 0xff else 0)) /\
  (Z.of_nat (length data) < len -> crc8 crc data len = Fault).
Proof.
  intros Hdata Hl.
  assert (Hc : 0 <= Z.land crc 0xff < 2 ^ 8).
  { change 255 with (Z.ones 8). rewrite Z.land_ones by lia.
    apply Z.mod_pos_bound. lia. }
  unfold crc8. split; intros Hb.
  - rewrite (crc8_loop_zero data (length data) (Z.to_nat len) (conj eq_refl Hdata))
      by lia.
    destruct (Z.eqb_spec len 0) as [->|]; [reflexivity|].
    destruct (Z.to_nat len) eqn:E; [lia|reflexivity].
  - apply crc8_loop_past_end; [assumption | lia | assumption | lia].
Qed.

Lemma crc8_reads_len_witness :
  crc8 0x1ab [1; 2; 3] 0 = Returned 0xab /\
  crc8 0x1ab [1; 2; 3] 3 = Returned 0 /\
  crc8 0x1ab [1; 2; 3] 4 = Fault.
Proof.
  split; [|split].
  - refine (proj1 (crc8_reads_len 0x1ab [1; 2; 3] 0 _ _) _);
      [repeat constructor; lia | lia | cbn; lia].
  - refine (proj1 (crc8_reads_len 0x1ab [1; 2; 3] 3 _ _) _);
      [repeat constructor; lia | lia | cbn; lia].
  - refine (proj2 (crc8_reads_len 0x1ab [1; 2; 3] 4 _ _) _);
      [repeat constructor; lia | lia | cbn; lia].
Defined.

(** ** mul_by *)

Section MulBy.

(** With [len = 0] the bound [len - 1] wraps to [2^64 - 1]: the loop
    walks to the end of the array and reads past it. *)
Lemma mul_by_loop_zero_len (data : list Z) (m : Z) (n : nat) :
  Z.of_nat (length data) < 2 ^ 64 - 1 ->
  forall (fuel : nat) (i sum : Z),
    0 <= i -> i + Z.of_nat n + 1 = Z.of_nat (length data) -> (n < fuel)%nat ->
    mul_by_loop fuel data 0 m i sum = Fault.
Proof.
  intros Hmax.
  induction n as [|n IH]; intros fuel i sum Hi Hn Hf;
    (destruct fuel as [|fuel]; [lia|]); cbn [mul_by_loop];
    change (wrap64 (0 - 1)) with (2 ^ 64 - 1);
    (destruct (Z.ltb_spec i (2 ^ 64 - 1)); [|lia]);
    rewrite (wrap64_small (i + 1)) by lia;
    destruct (read_inside data i ltac:(lia)) as [x ->]; cbn [mbind outcome_bind].
  - now rewrite read_outside by lia.
  - destruct (read_inside data (i + 1) ltac:(lia)) as [y ->]. cbn [mbind outcome_bind].
    apply IH; lia.
Qed.

(** With [1 <= len] inside the array the loop makes [len - 1] passes and
    returns. *)
Lemma mul_by_loop_returns (data : list Z) (len m : Z) (n : nat) :
  1 <= len <= Z.of_nat (length data) -> len < 2 ^ 64 ->
  forall (fuel : nat) (i sum : Z),
    0 <= i -> i + Z.of_nat n = len - 1 -> (n < fuel)%nat ->
    exists r : Z, mul_by_loop fuel data len m i sum = Returned r.
Proof.
  intros Hlen Hmax.
  induction n as [|n IH]; intros fuel i sum Hi Hn Hf;
    (destruct fuel as [|fuel]; [lia|]); cbn [mul_by_loop];
    rewrite (wrap64_small (len - 1)) by lia.
  - destruct (Z.ltb_spec i (len - 1)); [lia|]. eauto.
  - destruct (Z.ltb_spec i (len - 1)); [|lia].
    rewrite (wrap64_small (i + 1)) by lia.
    destruct (read_inside data i ltac:(lia)) as [x ->].
    destruct (read_inside data (i + 1) ltac:(lia)) as [y ->].
    cbn [mbind outcome_bind]. apply IH; lia.
Qed.

Lemma mul_by_4096 (buf : list Z) (m : Z) (fuel : nat) :
  length buf = 4096%nat -> (4096 <= fuel)%nat ->
  exists r : Z, mul_by fuel buf 4096 m = Returned r.
Proof.
  intros Hb Hf. unfold mul_by.
  destruct (mul_by_loop_returns buf 4096 m 4095 ltac:(lia) ltac:(lia)
              fuel 0 0 ltac:(lia) ltac:(lia) ltac:(lia)) as [r ->].
  cbn [mbind outcome_bind mret outcome_ret]. eauto.
Qed.

End MulBy.

Example mul_by_3 : mul_by 5 [2; 3; 5] 3 7 = Returned 105.
Proof. reflexivity. Qed.

Example mul_by_one : mul_by 5 [2; 3; 5] 1 7 = Returned 0.
Proof. reflexivity. Qed.

(** X8: [mul_by] called with [len = 0] does not return the empty sum:
    its bound [len - 1] wraps, the loop runs over the whole array and the
    read past its end faults, whatever the array and [m]. *)
Theorem mul_by_zero_len_faults (data : list Z) (m : Z) (fuel : nat) :
  Z.of_nat (length data) < 2 ^ 64 - 1 ->
  (1 <= fuel)%nat -> (length data <= fuel)%nat ->
  mul_by fuel data 0 m = Fault.
Proof.
  intros Hmax H1 Hf. unfold mul_by.
  destruct data as [|x data].
  - destruct fuel as [|fuel]; [lia|]. reflexivity.
  - rewrite (mul_by_loop_zero_len (x :: data) m (length data) Hmax);
      [reflexivity | lia | cbn [length]; lia | cbn [length] in Hf; lia].
Qed.

Lemma mul_by_zero_len_faults_witness :
  mul_by 3 [2; 3; 5] 0 7 = Fault.
Proof.
  apply (mul_by_zero_len_faults [2; 3; 5] 7 3); cbn; lia.
Defined.

(** X9: like the other kernels built on [mul_by_bench_f], the [mul_by]
    benchmark kernel returns 0 for every content of its 4096-element
    buffer, every iteration count of at least 1 and every argument. *)
Theorem mul_by_bench_zero (buf : list Z) (iters arg : Z) :
  length buf = 4096%nat -> 1 <= iters < 2 ^ 64 ->
  returns (fun fuel => mul_by_bench buf fuel iters arg) 0.
Proof.
  intros Hb Hi. exists (Nat.max 4096 (Z.to_nat iters)). intros fuel Hf.
  unfold mul_by_bench, mul_by_bench_f. cbv zeta.
  destruct (mul_by_4096 buf (modify 123) fuel Hb ltac:(lia)) as [r ->].
  apply (sink_loop_returns _ tt (Z.to_nat (iters - 1))); [reflexivity | lia | lia | lia].
Qed.

Lemma mul_by_bench_zero_witness :
  returns (fun fuel => mul_by_bench (replicate 4096 3) fuel 2 0) 0.
Proof.
  apply (mul_by_bench_zero (replicate 4096 3) 2 0); [reflexivity | lia].
Defined.

(** ** Strided stores: the number of passes *)

Section StridedPasses.

Lemma strided_stores_loop_length (T : store_type) (args : mem_args) (n : nat) :
  forall (fuel : nat) (iters i : Z),
    0 <= i -> iters <= 2 ^ 64 - 4 ->
    i + 4 * Z.of_nat n - 4 < iters <= i + 4 * Z.of_nat n ->
    length (strided_stores_loop T args fuel iters i) = Nat.min fuel n.
Proof.
  induction n as [|n IH]; intros fuel iters i Hi Hmax Hn;
    (destruct fuel as [|fuel]; [reflexivity|]); cbn [strided_stores_loop].
  - destruct (Z.ltb_spec i iters); [lia|]. reflexivity.
  - destruct (Z.ltb_spec i iters); [|lia].
    cbn [length]. rewrite (wrap64_small (i + 4)) by lia.
    rewrite IH by lia. reflexivity.
Qed.

(** Above [2^64 - 4] the counter, a multiple of four, wraps before it
    reaches [iters]. *)
Lemma strided_stores_loop_endless (T : store_type) (args : mem_args) (fuel : nat) :
  forall (iters i : Z),
    2 ^ 64 - 4 < iters -> 0 <= i < 2 ^ 64 -> i mod 4 = 0 ->
    length (strided_stores_loop T args fuel iters i) = fuel.
Proof.
  induction fuel as [|fuel IH]; intros iters i Hit Hi H4; [reflexivity|].
  cbn [strided_stores_loop].
  apply Z.mod_divide in H4; [|lia]. destruct H4 as [q Hq].
  destruct (Z.ltb_spec i iters); [|lia].
  cbn [length]. f_equal. apply IH; [lia | apply wrap64_range |].
  unfold wrap64. rewrite Z.mod_mod_divide by (exists (2 ^ 62); reflexivity).
  replace (i + 4) with (0 + (q + 1) * 4) by lia. now rewrite Z_mod_plus_full.
Qed.

End StridedPasses.

(** X10: for an iteration count up to [2^64 - 4] the strided-store
    kernel makes the count divided by four, rounded up, passes of four
    stores each (so more than [iters] stores when the count is not a
    multiple of four); for a larger count its loop counter wraps and the
    loop is never left. *)
Theorem strided_stores_passes (T : store_type) (args : mem_args) (iters : Z)
    (fuel : nat) :
  0 <= iters < 2 ^ 64 ->
  (iters <= 2 ^ 64 - 4 ->
   length (strided_stores T fuel iters args) = Nat.min fuel (Z.to_nat ((iters + 3) / 4))) /\
  (2 ^ 64 - 4 < iters -> length (strided_stores T fuel iters args) = fuel).
Proof.
  intros Hi. unfold strided_stores. split; intros Hb.
  - pose proof (Z.div_mod (iters + 3) 4 ltac:(lia)) as Hd.
    pose proof (Z.mod_pos_bound (iters + 3) 4 ltac:(lia)) as Hm.
    assert (Hq : 0 <= (iters + 3) / 4) by (apply Z.div_pos; lia).
    apply strided_stores_loop_length; [lia | lia |].
    rewrite Z2Nat.id by exact Hq. lia.
  - apply strided_stores_loop_endless; [lia | lia | reflexivity].
Qed.

Lemma strided_stores_passes_witness :
  length (strided_stores uint32_t 10 9 {| region := 0; stride := 16; mask := 255 |})
  = Nat.min 10 (Z.to_nat ((9 + 3) / 4)) /\
  length (strided_stores uint32_t 10 (2 ^ 64 - 1) {| region := 0; stride := 16; mask := 255 |})
  = 10%nat.
Proof.
  split.
  - refine (proj1 (strided_stores_passes uint32_t _ 9 10 _) _); lia.
  - refine (proj2 (strided_stores_passes uint32_t _ (2 ^ 64 - 1) 10 _) _); lia.
Defined.

(** ** Division kernels: the quotients and their sum *)

Section DivSum.

Lemma land_ldiff_disjoint (a b : Z) : Z.land (Z.ldiff a b) (Z.land a b) = 0.
Proof.
  apply Z.bits_inj'. intros k Hk.
  rewrite Z.land_spec, Z.ldiff_spec, Z.land_spec, Z.bits_0.
  destruct (Z.testbit a k), (Z.testbit b k); reflexivity.
Qed.

Lemma land_le_l (a b : Z) : 0 <= a -> Z.land a b <= a.
Proof.
  intros Ha.
  pose proof (Z.add_lor_land (Z.ldiff a b) (Z.land a b)) as H.
  rewrite Z.lor_ldiff_and, land_ldiff_disjoint in H.
  assert (0 <= Z.ldiff a b) by (apply Z.ldiff_nonneg; lia). lia.
Qed.

(** An [or] is at least each of its non-negative operands. *)
Lemma lor_ge_r (a b : Z) : 0 <= a -> 0 <= b -> b <= Z.lor a b.
Proof.
  intros Ha Hb. pose proof (Z.add_lor_land a b). pose proof (land_le_l a b Ha). lia.
Qed.

Lemma lor_lt_pow2 (a b n : Z) :
  0 <= a < 2 ^ n -> 0 <= b < 2 ^ n -> 0 < b -> Z.lor a b < 2 ^ n.
Proof.
  intros Ha Hb Hpos.
  assert (Hn : 0 <= n).
  { destruct (Z.le_gt_cases 0 n); [assumption|]. rewrite Z.pow_neg_r in Ha; lia. }
  assert (0 < Z.lor a b) by (pose proof (lor_ge_r a b); lia).
  apply Z.log2_lt_pow2; [assumption|].
  rewrite Z.log2_lor by lia.
  assert (Z.log2 b < n) by (apply Z.log2_lt_pow2; lia).
  destruct (Z.eq_dec a 0) as [->|];
    [change (Z.log2 0) with 0; pose proof (Z.log2_nonneg b); lia|].
  assert (Z.log2 a < n) by (apply Z.log2_lt_pow2; lia). lia.
Qed.

Lemma Zsum_from_ext (f g : Z -> Z) (m : nat) :
  forall k : Z, (forall d : Z, k <= d -> f d = g d) -> Zsum_from f k m = Zsum_from g k m.
Proof.
  induction m as [|m IH]; intros k H; [reflexivity|].
  cbn [Zsum_from]. rewrite (H k) by lia. f_equal. apply IH. intros d Hd. apply H. lia.
Qed.

Lemma Zsum_from_const (c k : Z) (m : nat) :
  Zsum_from (fun _ => c) k m = Z.of_nat m * c.
Proof.
  revert k. induction m as [|m IH]; intros k; cbn [Zsum_from]; [lia|].
  rewrite IH. lia.
Qed.

(** The loop adds the quotients of the divisors [k], [k + 1], ... up to
    [iters]. *)
Lemma div64_loop_sum (F : div_func) (forcedep : bool) (m : nat) :
  div_total F ->
  forall (fuel : nat) (iters k sum : Z),
    1 <= k -> iters < UINT64_MAX ->
    Z.of_nat m = iters + 1 - k -> (m < fuel)%nat ->
    0 <= sum < 2 ^ 64 ->
    div64_loop F forcedep 0 fuel iters k sum =
    Returned (to_int64 (wrap64 (sum + Zsum_from (fun d => default 0 (F d)) k m))).
Proof.
  unfold UINT64_MAX. intros HF.
  induction m as [|m IH]; intros fuel iters k sum Hk Hi Hm Hf Hs;
    (destruct fuel as [|fuel]; [lia|]); cbn [div64_loop Zsum_from].
  - destruct (Z.leb_spec k iters); [lia|].
    now rewrite Z.add_0_r, wrap64_small.
  - destruct (Z.leb_spec k iters); [|lia].
    rewrite div64_divisor_zero by lia.
    destruct (HF k ltac:(lia)) as [q Hq]. rewrite Hq. cbn [default].
    rewrite (wrap64_small (k + 1)) by lia.
    rewrite (IH fuel iters (k + 1)) by (lia || apply wrap64_range).
    do 2 f_equal. unfold wrap64.
    rewrite Zplus_mod_idemp_l. f_equal. unfold id. lia.
Qed.

Lemma div64_templ_sum (portable : bool) (suffix : div_suffix) (forcedep : bool) (n : Z) :
  0 <= n < UINT64_MAX ->
  returns (fun fuel => div64_templ (div_ portable suffix) forcedep fuel n)
          (to_int64 (wrap64 (Zsum_from (div_quotient portable suffix) 1 (Z.to_nat n)))).
Proof.
  intros Hn. exists (S (Z.to_nat n)). intros fuel Hf.
  unfold div64_templ, div64_templ_from, always_zero.
  rewrite (div64_loop_sum (div_ portable suffix) forcedep (Z.to_nat n)
             (div__total portable suffix)) by lia.
  reflexivity.
Qed.

End DivSum.

(** X11: the 128-by-64-bit division never traps: the divisor is or-ed
    with a constant whose top bit is set, so for every 64-bit argument,
    zero included, the [div] instruction gets a divisor above the high half
    of the dividend and leaves a quotient between 123 and 130. *)
Theorem div128_64_quotient (a : Z) :
  0 <= a < 2 ^ 64 ->
  exists q : Z, div128_64 false a = Some q /\ 123 <= q <= 130.
Proof.
  intros Ha. unfold div128_64. cbv zeta.
  pose proof (lor_ge_r a 0xF234567890123456 ltac:(lia) ltac:(lia)) as Hlo.
  pose proof (lor_lt_pow2 a 0xF234567890123456 64 Ha ltac:(lia) ltac:(lia)) as Hhi.
  set (d := Z.lor a 0xF234567890123456) in *.
  assert (Hq : 123 <= (123 * 2 ^ 64 + 2) / d <= 130).
  { split.
    - apply Z.div_le_lower_bound; lia.
    - assert ((123 * 2 ^ 64 + 2) / d < 131); [|lia].
      apply Z.div_lt_upper_bound; lia. }
  destruct (Z.eqb_spec d 0); [lia|].
  destruct (Z.leb_spec (2 ^ 64) ((123 * 2 ^ 64 + 2) / d)); [lia|].
  cbn [orb]. eauto.
Qed.

Lemma div128_64_quotient_witness :
  exists q : Z, div128_64 false 0 = Some q /\ 123 <= q <= 130.
Proof. apply (div128_64_quotient 0). lia. Defined.

(** X12: for an iteration count [n] below [2^64 - 1] the latency and the
    throughput kernel of a width return the sum of the quotients of the
    divisors 1 to [n], wrapped to 64 bits and read as a [long]. *)
Theorem div_kernels_sum (portable : bool) (suffix : div_suffix) (n : Z) :
  0 <= n < UINT64_MAX ->
  returns (fun fuel => div_lat_inline portable suffix fuel n)
          (to_int64 (wrap64 (Zsum_from (div_quotient portable suffix) 1 (Z.to_nat n)))) /\
  returns (fun fuel => div_tput_inline portable suffix fuel n)
          (to_int64 (wrap64 (Zsum_from (div_quotient portable suffix) 1 (Z.to_nat n)))).
Proof.
  intros Hn. unfold div_lat_inline, div_tput_inline.
  split; now apply div64_templ_sum.
Qed.

Lemma div_kernels_sum_witness :
  returns (fun fuel => div_lat_inline false s32_64 fuel 3)
          (to_int64 (wrap64 (Zsum_from (div_quotient false s32_64) 1 (Z.to_nat 3)))) /\
  returns (fun fuel => div_tput_inline false s32_64 fuel 3)
          (to_int64 (wrap64 (Zsum_from (div_quotient false s32_64) 1 (Z.to_nat 3)))).
Proof.
  apply (div_kernels_sum false s32_64 3). unfold UINT64_MAX. lia.
Defined.

(** X13: built with [UARCH_BENCH_PORTABLE], the 128-bit division is the
    constant 1 and its latency and throughput kernels return the iteration
    count itself, for every count below [2^63]. *)
Theorem div128_portable_counts (n : Z) :
  0 <= n < 2 ^ 63 ->
  returns (fun fuel => div_lat_inline true s128_64 fuel n) n /\
  returns (fun fuel => div_tput_inline true s128_64 fuel n) n.
Proof.
  intros Hn.
  assert (H : forall forcedep : bool,
             returns (fun fuel => div64_templ (div_ true s128_64) forcedep fuel n) n).
  { intros forcedep.
    destruct (div64_templ_sum true s128_64 forcedep n ltac:(unfold UINT64_MAX; lia))
      as [passes Hp].
    exists passes. intros fuel Hf. rewrite (Hp fuel Hf). f_equal.
    rewrite (Zsum_from_ext _ (fun _ => 1)) by reflexivity.
    rewrite Zsum_from_const, Z.mul_1_r, Z2Nat.id by lia.
    rewrite wrap64_small by lia. apply to_int64_small. lia. }
  unfold div_lat_inline, div_tput_inline. split; apply H.
Qed.

Lemma div128_portable_counts_witness :
  returns (fun fuel => div_lat_inline true s128_64 fuel 1000) 1000 /\
  returns (fun fuel => div_tput_inline true s128_64 fuel 1000) 1000.
Proof. apply (div128_portable_counts 1000). lia. Defined.

(** ** Lists of any shape *)

Section Chains.

Lemma to_int32_range (x : Z) : - 2 ^ 31 <= to_int32 x < 2 ^ 31.
Proof.
  unfold to_int32. pose proof (Z.mod_pos_bound (x + 2 ^ 31) (2 ^ 32)). lia.
Qed.

Lemma to_int32_small (x : Z) : - 2 ^ 31 <= x < 2 ^ 31 -> to_int32 x = x.
Proof. intros H. unfold to_int32. rewrite Z.mod_small; lia. Qed.

(** Wrapping an intermediate sum does not change the wrapped total. *)
Lemma to_int32_add_l (a b : Z) : to_int32 (to_int32 a + b) = to_int32 (a + b).
Proof.
  unfold to_int32.
  replace ((a + 2 ^ 31) mod 2 ^ 32 - 2 ^ 31 + b + 2 ^ 31)
    with ((a + 2 ^ 31) mod 2 ^ 32 + b) by lia.
  rewrite Zplus_mod_idemp_l. do 2 f_equal. lia.
Qed.

Lemma to_int64_add_l (a b : Z) : to_int64 (to_int64 a + b) = to_int64 (a + b).
Proof.
  unfold to_int64.
  replace ((a + 2 ^ 63) mod 2 ^ 64 - 2 ^ 63 + b + 2 ^ 63)
    with ((a + 2 ^ 63) mod 2 ^ 64 + b) by lia.
  rewrite Zplus_mod_idemp_l. do 2 f_equal. lia.
Qed.

Lemma deref_node (h : list list_node) (a : nat) (nd : list_node) :
  h !! a = Some nd -> deref h (Some a) = Returned nd.
Proof. intros H. unfold deref. now rewrite H. Qed.

(** The sentinel traversal of a null-terminated chain. *)
Lemma sum_sentinel_loop_chain (h : list list_node) (vals : list Z) :
  forall (fuel : nat) (p : option nat) (sum : Z),
    chain h p vals -> (length vals < fuel)%nat ->
    - 2 ^ 31 <= sum < 2 ^ 31 ->
    sum_sentinel_loop fuel h p sum = Returned (to_int32 (sum + Zsum vals)).
Proof.
  induction vals as [|v vals IH]; intros fuel p sum Hc Hf Hs;
    (destruct fuel as [|fuel]; [cbn [length] in Hf; lia|]); cbn [sum_sentinel_loop].
  - cbn [chain] in Hc. subst p. unfold Zsum. cbn [foldr].
    now rewrite Z.add_0_r, to_int32_small.
  - destruct Hc as (a & q & -> & Ha & Hq).
    rewrite (deref_node _ _ _ Ha). cbn [mbind outcome_bind value next].
    rewrite (IH fuel q) by (assumption || (cbn [length] in Hf; lia) || apply to_int32_range).
    rewrite to_int32_add_l. unfold Zsum. cbn [foldr]. do 2 f_equal. lia.
Qed.

(** The counter traversal of the first [n] nodes of a chain. *)
Lemma sum_counter_loop_chain (h : list list_node) (n : nat) :
  forall (vals : list Z) (fuel : nat) (size : Z) (p : option nat) (i sum : Z),
    chain h p vals -> Z.of_nat n = size - i -> (n <= length vals)%nat ->
    (n < fuel)%nat -> - 2 ^ 31 <= sum < 2 ^ 31 ->
    sum_counter_loop fuel h size p i sum = Returned (to_int32 (sum + Zsum (take n vals))).
Proof.
  induction n as [|n IH]; intros vals fuel size p i sum Hc Hn Hl Hf Hs;
    (destruct fuel as [|fuel]; [lia|]); cbn [sum_counter_loop].
  - destruct (Z.ltb_spec i size); [lia|].
    rewrite take_0. unfold Zsum. cbn [foldr]. now rewrite Z.add_0_r, to_int32_small.
  - destruct (Z.ltb_spec i size); [|lia].
    destruct vals as [|v vals]; [cbn [length] in Hl; lia|].
    destruct Hc as (a & q & -> & Ha & Hq).
    rewrite (deref_node _ _ _ Ha). cbn [mbind outcome_bind value next].
    rewrite (IH vals fuel size q (i + 1))
      by (assumption || (cbn [length] in Hl; lia) || lia || apply to_int32_range).
    rewrite to_int32_add_l. cbn [take]. unfold Zsum. cbn [foldr]. do 2 f_equal. lia.
Qed.

(** The counter traversal with a count beyond the chain runs into
    [nullptr]. *)
Lemma sum_counter_loop_past_chain (h : list list_node) (vals : list Z) :
  forall (fuel : nat) (size : Z) (p : option nat) (i sum : Z),
    chain h p vals -> Z.of_nat (length vals) < size - i ->
    (length vals < fuel)%nat ->
    sum_counter_loop fuel h size p i sum = Fault.
Proof.
  induction vals as [|v vals IH]; intros fuel size p i sum Hc Hn Hf;
    (destruct fuel as [|fuel]; [cbn [length] in Hf; lia|]); cbn [sum_counter_loop];
    cbn [length] in Hn, Hf;
    (destruct (Z.ltb_spec i size); [|lia]).
  - cbn [chain] in Hc. subst p. reflexivity.
  - destruct Hc as (a & q & -> & Ha & Hq).
    rewrite (deref_node _ _ _ Ha). cbn [mbind outcome_bind value next].
    apply (IH fuel size q); [assumption | lia | lia].
Qed.

(** From a pointer that can be followed for ever, the sentinel
    traversal is never left. *)
Lemma sum_sentinel_loop_closed (h : list list_node) (P : option nat -> Prop) :
  (forall p, P p -> exists (a : nat) (nd : list_node),
        p = Some a /\ h !! a = Some nd /\ P (next nd)) ->
  forall (fuel : nat) (p : option nat) (sum : Z),
    P p -> sum_sentinel_loop fuel h p sum = Running.
Proof.
  intros Hclosed. induction fuel as [|fuel IH]; intros p sum Hp; [reflexivity|].
  cbn [sum_sentinel_loop].
  destruct (Hclosed p Hp) as (a & nd & -> & Ha & Hn).
  rewrite (deref_node _ _ _ Ha). cbn [mbind outcome_bind]. now apply IH.
Qed.

(** Every node of a cycle through [first] leads back to [first]. *)
Lemma cycle_closed (h : list list_node) (first : option nat) (vals : list Z) :
  cycle h first first vals ->
  forall p, (exists vs, cycle h first p vs) ->
       exists (a : nat) (nd : list_node),
         p = Some a /\ h !! a = Some nd /\ (exists vs, cycle h first (next nd) vs).
Proof.
  intros Hfull p [vs Hvs].
  destruct vs as [|v vs]; [contradiction|].
  destruct Hvs as (a & q & -> & Ha & Hrest).
  exists a, {| value := v; next := q |}. split; [reflexivity|]. split; [exact Ha|].
  cbn [next]. destruct vs as [|w vs].
  - subst q. eauto.
  - destruct Hrest as [_ Hrest]. eauto.
Qed.

End Chains.

(** X14: on a null-terminated chain of nodes the sentinel traversal
    returns the sum of all their values (as an [int]), whatever the [size]
    field of the head says. *)
Theorem sum_sentinel_chain (h : list list_node) (head : list_head) (vals : list Z)
    (fuel : nat) :
  chain h (first head) vals -> (length vals < fuel)%nat ->
  sum_sentinel fuel h head = Returned (to_int32 (Zsum vals)).
Proof.
  intros Hc Hf. unfold sum_sentinel.
  now rewrite (sum_sentinel_loop_chain h vals fuel (first head) 0 Hc Hf) by lia.
Qed.

Lemma sum_sentinel_chain_witness :
  sum_sentinel 3%nat
    [{| value := 7; next := None |}; {| value := 5; next := Some 0%nat |}]
    {| size := 99; first := Some 1%nat |}
  = Returned (to_int32 (Zsum [5; 7])).
Proof.
  apply (sum_sentinel_chain _ _ [5; 7] 3); [|cbn; lia].
  cbn. eexists _, _. split; [reflexivity|]. split; [reflexivity|].
  eexists _, _. split; [reflexivity|]. split; reflexivity.
Defined.

(** X15: the counter traversal trusts the [size] field: on a
    null-terminated chain it returns the sum of the first [size] values
    when the chain has at least [size] nodes, and it dereferences
    [nullptr] when [size] exceeds the length of the chain. *)
Theorem sum_counter_chain (h : list list_node) (head : list_head) (vals : list Z)
    (fuel : nat) :
  chain h (first head) vals -> 0 <= size head ->
  (size head <= Z.of_nat (length vals) -> (Z.to_nat (size head) < fuel)%nat ->
   sum_counter fuel h head = Returned (to_int32 (Zsum (take (Z.to_nat (size head)) vals)))) /\
  (Z.of_nat (length vals) < size head -> (length vals < fuel)%nat ->
   sum_counter fuel h head = Fault).
Proof.
  intros Hc Hs. unfold sum_counter. split; intros Hl Hf.
  - now rewrite (sum_counter_loop_chain h (Z.to_nat (size head)) vals fuel (size head)
                   (first head) 0 0 Hc) by lia.
  - apply (sum_counter_loop_past_chain h vals); [assumption | lia | assumption].
Qed.

Lemma sum_counter_chain_witness :
  let h := [{| value := 7; next := None |}; {| value := 5; next := Some 0%nat |}] in
  sum_counter 3%nat h {| size := 1; first := Some 1%nat |}
  = Returned (to_int32 (Zsum (take (Z.to_nat 1) [5; 7]))) /\
  sum_counter 3%nat h {| size := 3; first := Some 1%nat |} = Fault.
Proof.
  cbv zeta.
  assert (Hc : chain [{| value := 7; next := None |}; {| value := 5; next := Some 0%nat |}]
                     (Some 1%nat) [5; 7]).
  { cbn. eexists _, _. split; [reflexivity|]. split; [reflexivity|].
    eexists _, _. split; [reflexivity|]. split; reflexivity. }
  split.
  - refine (proj1 (sum_counter_chain _ {| size := 1; first := Some 1%nat |} [5; 7] 3 Hc _) _ _);
      cbn; lia.
  - refine (proj2 (sum_counter_chain _ {| size := 3; first := Some 1%nat |} [5; 7] 3 Hc _) _ _);
      cbn; lia.
Defined.

(** X16: on a list whose links form a cycle through its first node the
    sentinel traversal never finds [nullptr]: it is still running after
    any number of passes. *)
Theorem sum_sentinel_cycle_runs (h : list list_node) (head : list_head) (vals : list Z)
    (fuel : nat) :
  cycle h (first head) (first head) vals ->
  sum_sentinel fuel h head = Running.
Proof.
  intros Hc. unfold sum_sentinel.
  apply (sum_sentinel_loop_closed h (fun p => exists vs, cycle h (first head) p vs)).
  - now apply (cycle_closed h (first head) vals).
  - eauto.
Qed.

Lemma sum_sentinel_cycle_runs_witness :
  sum_sentinel 50%nat
    [{| value := 7; next := Some 1%nat |}; {| value := 5; next := Some 0%nat |}]
    {| size := 2; first := Some 0%nat |}
  = Running.
Proof.
  apply (sum_sentinel_cycle_runs _ _ [7; 5] 50).
  cbn. eexists _, _. split; [reflexivity|]. split; [reflexivity|].
  split; [discriminate|].
  eexists _, _. split; [reflexivity|]. split; reflexivity.
Defined.

(** ** Circular traversal *)

Section Circular.

Lemma to_int64_idem_small (x : Z) : - 2 ^ 63 <= x < 2 ^ 63 -> to_int64 x = x.
Proof. apply to_int64_small. Qed.

(** One lap round a cycle. *)
Lemma sumlist_loop_cycle (h : list list_node) (first : option nat) (vals : list Z) :
  forall (fuel : nat) (p : option nat) (sum : Z),
    cycle h first p vals -> (length vals <= fuel)%nat ->
    sumlist_loop fuel h first p sum = Returned (to_int64 (sum + Zsum vals)).
Proof.
  induction vals as [|v vals IH]; intros fuel p sum Hc Hf; [contradiction|].
  destruct fuel as [|fuel]; [cbn [length] in Hf; lia|].
  destruct Hc as (a & q & -> & Ha & Hrest).
  cbn [sumlist_loop]. rewrite (deref_node _ _ _ Ha).
  cbn [mbind outcome_bind value next].
  destruct vals as [|w vals].
  - subst q. rewrite decide_True by reflexivity.
    unfold Zsum. cbn [foldr]. do 2 f_equal. lia.
  - destruct Hrest as [Hne Hrest]. rewrite decide_False by exact Hne.
    rewrite (IH fuel q) by (assumption || (cbn [length] in *; lia)).
    rewrite to_int64_add_l. unfold Zsum. cbn [foldr]. do 2 f_equal. lia.
Qed.

(** A pointer leads to [nullptr] along one chain only. *)
Lemma chain_functional (h : list list_node) (v1 : list Z) :
  forall (p : option nat) (v2 : list Z), chain h p v1 -> chain h p v2 -> v1 = v2.
Proof.
  induction v1 as [|v v1 IH]; intros p v2 H1 H2.
  - cbn [chain] in H1. subst p. destruct v2 as [|w v2]; [reflexivity|].
    destruct H2 as (a & q & Hp & _). discriminate.
  - destruct H1 as (a & q & -> & Ha & Hq).
    destruct v2 as [|w v2]; [cbn [chain] in H2; discriminate|].
    destruct H2 as (a' & q' & [= <-] & Ha' & Hq').
    rewrite Ha in Ha'. injection Ha' as <- <-.
    f_equal. now apply (IH q).
Qed.

(** Walking a null-terminated chain never comes back to its first
    node: the circular traversal walks to [nullptr]. *)
Lemma sumlist_loop_chain (h : list list_node) (first : option nat) (vals : list Z) :
  chain h first vals ->
  forall (rest : list Z) (fuel : nat) (p : option nat) (sum : Z),
    chain h p rest -> (length rest <= length vals)%nat ->
    (length rest < fuel)%nat ->
    sumlist_loop fuel h first p sum = Fault.
Proof.
  intros Hfull.
  induction rest as [|v rest IH]; intros fuel p sum Hc Hl Hf;
    (destruct fuel as [|fuel]; [cbn [length] in Hf; lia|]); cbn [sumlist_loop].
  - cbn [chain] in Hc. subst p. reflexivity.
  - destruct Hc as (a & q & -> & Ha & Hq).
    rewrite (deref_node _ _ _ Ha). cbn [mbind outcome_bind value next].
    cbn [length] in Hl, Hf.
    destruct (decide (q = first)) as [E|E].
    + subst q. pose proof (chain_functional h rest first vals Hq Hfull) as Heq.
      subst rest. lia.
    + apply IH; [assumption | lia | lia].
Qed.

Lemma shuffled_list_sum_loop_cycle (h : list list_node) (r : region_arg)
    (vals : list Z) (passes : nat) (n : nat) :
  cycle h (start r) (start r) vals -> (length vals <= passes)%nat ->
  forall (fuel : nat) (iters sum : Z),
    iters = Z.of_nat n -> iters < 2 ^ 64 -> (n < fuel)%nat ->
    - 2 ^ 31 <= sum < 2 ^ 31 ->
    shuffled_list_sum_loop passes fuel h r iters sum =
    Returned (to_int32 (sum + iters * to_int64 (Zsum vals))).
Proof.
  intros Hc Hp.
  induction n as [|n IH]; intros fuel iters sum Hi Hmax Hf Hs;
    (destruct fuel as [|fuel]; [lia|]); cbn [shuffled_list_sum_loop].
  - destruct (Z.ltb_spec 0 iters); [lia|]. subst iters.
    now rewrite Z.mul_0_l, Z.add_0_r, to_int32_small.
  - destruct (Z.ltb_spec 0 iters); [|lia].
    unfold sumlist. rewrite (sumlist_loop_cycle h (start r) vals passes (start r) 0 Hc Hp).
    cbn [mbind outcome_bind]. rewrite Z.add_0_l.
    rewrite (wrap64_small (iters - 1)) by lia.
    rewrite (IH fuel (iters - 1)) by (lia || apply to_int32_range).
    rewrite to_int32_add_l. f_equal. f_equal. lia.
Qed.

End Circular.

(** X17: on nodes whose links form a cycle through [first], the
    circular traversal makes one lap and returns the sum of the values on
    the cycle (as a [long]). *)
Theorem sumlist_cycle (h : list list_node) (first : option nat) (vals : list Z)
    (fuel : nat) :
  cycle h first first vals -> (length vals <= fuel)%nat ->
  sumlist fuel h first = Returned (to_int64 (Zsum vals)).
Proof.
  intros Hc Hf. unfold sumlist.
  now rewrite (sumlist_loop_cycle h first vals fuel first 0 Hc Hf).
Qed.

Lemma sumlist_cycle_witness :
  sumlist 2
    [{| value := 7; next := Some 1%nat |}; {| value := 5; next := Some 0%nat |}]
    (Some 0%nat)
  = Returned (to_int64 (Zsum [7; 5])).
Proof.
  apply (sumlist_cycle _ _ [7; 5] 2); [|cbn; lia].
  cbn. eexists _, _. split; [reflexivity|]. split; [reflexivity|].
  split; [discriminate|].
  eexists _, _. split; [reflexivity|]. split; reflexivity.
Defined.

(** X18: the circular traversal needs a cycle: on a null-terminated
    chain (the empty list included) it never meets [first] again, walks to
    the end and dereferences [nullptr]. *)
Theorem sumlist_chain_faults (h : list list_node) (first : option nat) (vals : list Z)
    (fuel : nat) :
  chain h first vals -> (length vals < fuel)%nat ->
  sumlist fuel h first = Fault.
Proof.
  intros Hc Hf. unfold sumlist.
  now apply (sumlist_loop_chain h first vals Hc vals).
Qed.

Lemma sumlist_chain_faults_witness :
  sumlist 3
    [{| value := 7; next := None |}; {| value := 5; next := Some 0%nat |}]
    (Some 1%nat)
  = Fault.
Proof.
  apply (sumlist_chain_faults _ _ [5; 7] 3); [|cbn; lia].
  cbn. eexists _, _. split; [reflexivity|]. split; [reflexivity|].
  eexists _, _. split; [reflexivity|]. split; reflexivity.
Defined.

(** X19: on a region whose nodes form a cycle through its start, the
    shuffled-list kernel returns the iteration count times the sum of the
    cycle, accumulated in an [int]. *)
Theorem shuffled_list_sum_cycle (h : list list_node) (r : region_arg) (vals : list Z)
    (iters : Z) :
  cycle h (start r) (start r) vals -> 0 <= iters < 2 ^ 64 ->
  returns (fun fuel => shuffled_list_sum h fuel iters r)
          (to_int32 (iters * to_int64 (Zsum vals))).
Proof.
  intros Hc Hi. exists (Nat.max (length vals) (S (Z.to_nat iters))). intros fuel Hf.
  unfold shuffled_list_sum.
  rewrite (shuffled_list_sum_loop_cycle h r vals fuel (Z.to_nat iters) Hc) by lia.
  f_equal.
Qed.

Lemma shuffled_list_sum_cycle_witness :
  returns (fun fuel => shuffled_list_sum
             [{| value := 7; next := Some 1%nat |}; {| value := 5; next := Some 0%nat |}]
             fuel 3 {| start := Some 0%nat; length_bytes := 32 |})
          (to_int32 (3 * to_int64 (Zsum [7; 5]))).
Proof.
  apply (shuffled_list_sum_cycle _ {| start := Some 0%nat; length_bytes := 32 |} [7; 5] 3);
    [|lia].
  cbn. eexists _, _. split; [reflexivity|]. split; [reflexivity|].
  split; [discriminate|].
  eexists _, _. split; [reflexivity|]. split; reflexivity.
Defined.

(** ** List construction for any node count *)

Section MakeListAnySize.

(** The loop of [makeList] links [cur] to the [n] zero nodes from
    [all_nodes] on, in order, and touches nothing else. *)
Lemma makeList_loop_links (n : nat) :
  forall (fuel : nat) (H : list list_node) (size : Z) (a c : nat) (v : Z),
    size = Z.of_nat n + 1 -> (n < fuel)%nat ->
    H !! c = Some {| value := v; next := None |} ->
    (forall j, (j < n)%nat -> H !! (a + j)%nat = Some {| value := 0; next := None |}) ->
    (c < a \/ a + n <= c)%nat ->
    length (makeList_loop fuel H size a c) = length H /\
    chain (makeList_loop fuel H size a c) (Some c) (v :: replicate n 0) /\
    (forall k, k <> c -> (k < a \/ a + n <= k)%nat ->
          makeList_loop fuel H size a c !! k = H !! k).
Proof.
  induction n as [|n IH]; intros fuel H size a c v Hs Hf Hc Hz Hout;
    (destruct fuel as [|fuel]; [lia|]); cbn [makeList_loop].
  - destruct (Z.ltb_spec 0 (size - 1)); [lia|].
    split; [reflexivity|]. split; [|reflexivity].
    cbn [replicate chain]. exists c, None. auto.
  - destruct (Z.ltb_spec 0 (size - 1)); [|lia].
    assert (Hac : a <> c) by lia.
    destruct (IH fuel (alter (set_next (Some a)) c H) (size - 1) (S a) a 0)
      as (Hlen & Hchain & Hframe).
    + lia.
    + lia.
    + rewrite list_lookup_alter_ne by auto.
      rewrite <- (Hz 0%nat ltac:(lia)). f_equal. lia.
    + intros j Hj. rewrite list_lookup_alter_ne by lia.
      rewrite <- (Hz (S j) ltac:(lia)). f_equal. lia.
    + lia.
    + split; [now rewrite Hlen, length_alter|]. split.
      * cbn [replicate chain]. exists c, (Some a). split; [reflexivity|].
        split; [|exact Hchain].
        rewrite Hframe by lia.
        rewrite list_lookup_alter_eq, Hc. reflexivity.
      * intros k Hk Hko. rewrite Hframe by lia.
        now rewrite list_lookup_alter_ne by auto.
Qed.

Lemma Zsum_replicate_0 (n : nat) : Zsum (replicate n 0) = 0.
Proof. unfold Zsum. induction n as [|n IH]; cbn [replicate foldr]; lia. Qed.

Lemma makeList_chain (size : Z) (h : list list_node) :
  1 <= size ->
  exists h' : list list_node,
    makeList size h =
      Returned (h', {| size := size; first := Some (length h + Z.to_nat size)%nat |}) /\
    length h' = (length h + Z.to_nat size + 1)%nat /\
    (forall k, (k < length h)%nat -> h' !! k = h !! k) /\
    chain h' (Some (length h + Z.to_nat size)%nat)
          (1 :: replicate (Z.to_nat size - 1) 0).
Proof.
  intros Hs. unfold makeList.
  destruct (Z.eqb_spec size 0) as [Hz|_]; [lia|].
  destruct (Z.ltb_spec size 0) as [Hneg|_]; [lia|].
  rewrite length_app, length_replicate.
  set (n := Z.to_nat size).
  set (H := (h ++ replicate n {| value := 0; next := None |}) ++
            [{| value := 1; next := None |}]).
  destruct (makeList_loop_links (n - 1) n H size (length h) (length h + n) 1)
    as (Hlen & Hchain & Hframe).
  - lia.
  - lia.
  - unfold H. rewrite lookup_app_r by (rewrite length_app, length_replicate; lia).
    rewrite length_app, length_replicate, Nat.sub_diag. reflexivity.
  - intros j Hj. unfold H.
    rewrite lookup_app_l by (rewrite length_app, length_replicate; lia).
    rewrite lookup_app_r by lia.
    replace (length h + j - length h)%nat with j by lia.
    apply lookup_replicate_2. lia.
  - lia.
  - eexists. split; [reflexivity|]. split; [|split].
    + rewrite Hlen. unfold H. rewrite !length_app, length_replicate. cbn [length]. lia.
    + intros k Hk. rewrite Hframe by lia. unfold H.
      rewrite <- app_assoc. now apply lookup_app_l.
    + exact Hchain.
Qed.

End MakeListAnySize.

Example makeList_3 :
  makeList 3 [] =
  Returned ([ {| value := 0; next := Some 1%nat |};
              {| value := 0; next := None |};
              {| value := 0; next := None |};
              {| value := 1; next := Some 0%nat |} ],
            {| size := 3; first := Some 3%nat |}).
Proof. reflexivity. Qed.



(** X21: for every node count, on the list [makeList] returns both
    traversals return the same sum: 1 when the list has nodes and 0 for the
    empty list of size 0. *)
Theorem makeList_sums (size : Z) (h : list list_node) (fuel : nat) :
  0 <= size -> (Z.to_nat size < fuel)%nat ->
  exists (h' : list list_node) (head : list_head),
    makeList size h = Returned (h', head) /\
    sum_counter fuel h' head = Returned (if size =? 0 then 0 else 1) /\
    sum_sentinel fuel h' head = Returned (if size =? 0 then 0 else 1).
Proof.
  rename size into n. intros Hs Hf. destruct (Z.eqb_spec n 0) as [->|Hne].
  - exists h, {| size := 0; first := None |}. split; [reflexivity|].
    destruct fuel as [|fuel]; [lia|]. split; reflexivity.
  - destruct (makeList_chain n h ltac:(lia)) as (h' & Hm & _ & _ & Hc).
    eexists _, _. split; [exact Hm|].
    assert (Hsum : Zsum (1 :: replicate (Z.to_nat n - 1) 0) = 1).
    { unfold Zsum. cbn [foldr]. fold (Zsum (replicate (Z.to_nat n - 1) 0)).
      rewrite Zsum_replicate_0. reflexivity. }
    assert (Hlen : length (1 :: replicate (Z.to_nat n - 1) 0) = Z.to_nat n).
    { cbn [length]. rewrite length_replicate. lia. }
    unfold sum_counter, sum_sentinel. cbn [size first]. split.
    + rewrite (sum_counter_loop_chain h' (Z.to_nat n) _ fuel n _ 0 0 Hc)
        by (lia || (rewrite Hlen; lia)).
      rewrite take_ge by (rewrite Hlen; lia). now rewrite Hsum.
    + rewrite (sum_sentinel_loop_chain h' _ fuel _ 0 Hc) by (lia || (rewrite Hlen; lia)).
      now rewrite Hsum.
Qed.

Lemma makeList_sums_witness :
  exists (h' : list list_node) (head : list_head),
    makeList 7 [] = Returned (h', head) /\
    sum_counter 8%nat h' head = Returned (if 7 =? 0 then 0 else 1) /\
    sum_sentinel 8%nat h' head = Returned (if 7 =? 0 then 0 else 1).
Proof. apply (makeList_sums 7 [] 8%nat); lia. Defined.

(** ** The list kernels for any iteration count *)

Section ListKernelIters.

Lemma linkedlist_sum_lists_wrap (LIST_COUNT : Z) (SUM_IMPL : list_sum)
    (passes : nat) (h : list list_node) (lists : list list_head) (n : nat) :
  Forall (fun head => SUM_IMPL passes h head = Returned 1) lists ->
  Z.of_nat (length lists) = LIST_COUNT -> LIST_COUNT < 2 ^ 31 ->
  forall (fuel : nat) (list_index sum : Z),
    0 <= list_index -> list_index + Z.of_nat n = LIST_COUNT ->
    (n < fuel)%nat -> - 2 ^ 31 <= sum < 2 ^ 31 ->
    linkedlist_sum_lists LIST_COUNT SUM_IMPL passes fuel h lists list_index sum
    = Returned (to_int32 (sum + Z.of_nat n)).
Proof.
  intros Hs Hlen Hmax.
  induction n as [|n IH]; intros fuel idx sum Hi Hn Hf Hsum;
    (destruct fuel as [|fuel]; [lia|]); cbn [linkedlist_sum_lists].
  - destruct (Z.ltb_spec idx LIST_COUNT); [lia|].
    now rewrite Z.add_0_r, to_int32_small.
  - destruct (Z.ltb_spec idx LIST_COUNT); [|lia].
    unfold at_index. destruct (Z.ltb_spec idx 0); [lia|].
    destruct (lookup_lt_is_Some_2 lists (Z.to_nat idx) ltac:(lia)) as [head Hh].
    rewrite Hh. cbn [mbind outcome_bind].
    rewrite Forall_lookup in Hs. rewrite (Hs _ _ Hh). cbn [mbind outcome_bind].
    rewrite (wrap64_small (idx + 1)) by lia.
    rewrite IH by (lia || apply to_int32_range).
    rewrite to_int32_add_l. do 2 f_equal. lia.
Qed.

Lemma linkedlist_sum_loop_iters (LIST_COUNT : Z) (SUM_IMPL : list_sum)
    (passes : nat) (h : list list_node) (lists : list list_head) (m : nat) :
  Forall (fun head => SUM_IMPL passes h head = Returned 1) lists ->
  Z.of_nat (length lists) = LIST_COUNT -> LIST_COUNT < 2 ^ 31 ->
  (Z.to_nat LIST_COUNT < passes)%nat ->
  forall (fuel : nat) (iters sum : Z),
    iters = Z.of_nat m -> iters < 2 ^ 64 -> (m < fuel)%nat ->
    - 2 ^ 31 <= sum < 2 ^ 31 ->
    linkedlist_sum_loop LIST_COUNT SUM_IMPL passes fuel h lists iters sum
    = Returned (to_int32 (sum + iters * LIST_COUNT)).
Proof.
  intros Hs Hlen Hmax Hp.
  induction m as [|m IH]; intros fuel iters sum Hi Hit Hf Hsum;
    (destruct fuel as [|fuel]; [lia|]); cbn [linkedlist_sum_loop].
  - destruct (Z.ltb_spec 0 iters); [lia|]. subst iters.
    now rewrite Z.mul_0_l, Z.add_0_r, to_int32_small.
  - destruct (Z.ltb_spec 0 iters); [|lia].
    rewrite (linkedlist_sum_lists_wrap LIST_COUNT SUM_IMPL passes h lists
               (Z.to_nat LIST_COUNT) Hs Hlen Hmax) by lia.
    cbn [mbind outcome_bind].
    rewrite (wrap64_small (iters - 1)) by lia.
    rewrite (IH fuel (iters - 1)) by (lia || apply to_int32_range).
    rewrite to_int32_add_l. do 2 f_equal. lia.
Qed.

Lemma linkedlist_sum_iters (LIST_COUNT : Z) (SUM_IMPL : list_sum) (fuel : nat) (iters : Z) :
  0 <= LIST_COUNT < 2 ^ 31 -> 0 <= iters < 2 ^ 64 ->
  (forall (h : list list_node) (head : list_head),
      sums_to h head 1 -> SUM_IMPL fuel h head = Returned 1) ->
  (Z.to_nat LIST_COUNT < fuel)%nat -> (Z.to_nat iters < fuel)%nat ->
  linkedlist_sum LIST_COUNT SUM_IMPL fuel iters = Returned (to_int32 (iters * LIST_COUNT)).
Proof.
  intros HL Hi HS Hf Hfi. unfold linkedlist_sum, listOfLists, makeLists.
  destruct (makeLists_loop_sums LIST_COUNT (Z.to_nat LIST_COUNT)
              (S (Z.to_nat LIST_COUNT)) [] [] 0 ltac:(lia) ltac:(lia)
              ltac:(constructor)) as (h & lists & -> & Hs & Hlen).
  cbn [mbind outcome_bind length Nat.add] in *.
  rewrite (linkedlist_sum_loop_iters LIST_COUNT SUM_IMPL fuel h lists (Z.to_nat iters));
    try lia; [reflexivity|].
  eapply Forall_impl; [exact Hs|]. intros head Hh. now apply HS.
Qed.

End ListKernelIters.

(** X22: for every iteration count the two list kernels return the same
    value, the count times the number of lists, accumulated in an [int]
    (so reduced to 32 bits, two's complement). *)
Theorem linkedlist_kernels_iters (LIST_COUNT iters : Z) :
  0 <= LIST_COUNT < 2 ^ 31 -> 0 <= iters < 2 ^ 64 ->
  returns (fun fuel => linkedlist_counter LIST_COUNT fuel iters)
          (to_int32 (iters * LIST_COUNT)) /\
  returns (fun fuel => linkedlist_sentinel LIST_COUNT fuel iters)
          (to_int32 (iters * LIST_COUNT)).
Proof.
  intros HL Hi.
  split; exists (S (Z.to_nat (Z.max (Z.max LIST_COUNT NODE_COUNT) iters)));
    intros fuel Hf; unfold NODE_COUNT in Hf;
    (apply linkedlist_sum_iters; [assumption | assumption | | lia | lia]);
    intros h head Hh; apply Hh; unfold NODE_COUNT; lia.
Qed.

Lemma linkedlist_kernels_iters_witness :
  returns (fun fuel => linkedlist_counter 4000 fuel 1000000)
          (to_int32 (1000000 * 4000)) /\
  returns (fun fuel => linkedlist_sentinel 4000 fuel 1000000)
          (to_int32 (1000000 * 4000)).
Proof. apply (linkedlist_kernels_iters 4000 1000000); lia. Defined.
